(** * The game graph of the Steam recommender ([game_graph.py])

    A shallow embedding of the classes [Game], [GameNode] and [GameGraph]
    and of the module-level helpers [sort_games] and [highest_scoring_game],
    followed by the properties of the scoring and ranking engine.

    Python objects are mutable and shared, so the embedding keeps an object
    store: [Game] and [GameNode] objects live in two heaps and are named by
    their index.  A method is a function from the store to an outcome that
    is either a normal return or a raised exception, each with the store
    as the method left it.  Python [float] is IEEE binary64, which is what
    Rocq's primitive floats are. *)

From Stdlib Require Import ZArith Floats Uint63 Ascii String.
From stdpp Require Import base list.

Set Warnings "-inexact-float".
Local Open Scope Z_scope.

(** ** Exceptions and the method monad *)

(** The Python exceptions the module can raise.  [FuelExhausted] is not a
    Python exception: it marks the bound given to the two [while] loops,
    which no run reaches (see [top_games_loop_fuel] below). *)
Inductive exn : Set :=
| AttributeError
| KeyError
| TypeError
| ZeroDivisionError
| AssertionError
| IndexError
| FuelExhausted.

Inductive outcome (S A : Type) : Type :=
| Ok (a : A) (s : S)
| Raise (e : exn) (s : S).
Arguments Ok {S A} a s.
Arguments Raise {S A} e s.

Definition state_of {S A} (o : outcome S A) : S :=
  match o with Ok _ s => s | Raise _ s => s end.

Definition raised {S A} (o : outcome S A) : option exn :=
  match o with Ok _ _ => None | Raise e _ => Some e end.

Definition St (S A : Type) : Type := S -> outcome S A.

Definition ret {S A} (a : A) : St S A := fun s => Ok a s.
Definition raise {S A} (e : exn) : St S A := fun s => Raise e s.
Definition bind {S A B} (c : St S A) (k : A -> St S B) : St S B :=
  fun s => match c s with
           | Ok a s' => k a s'
           | Raise e s' => Raise e s'
           end.

Notation "x <- c ;; k" := (bind c (fun x => k))
  (at level 100, c at next level, right associativity).
Notation "c ;;; k" := (bind c (fun _ => k))
  (at level 100, right associativity).

(** [for x in xs: body x] *)
Fixpoint for_each {S A} (xs : list A) (body : A -> St S unit) : St S unit :=
  match xs with
  | [] => ret tt
  | x :: xs' => body x ;;; for_each xs' body
  end.

(** A loop that threads a local variable of type [B] through its body. *)
Fixpoint for_fold {S A B} (xs : list A) (body : B -> A -> St S B) (b : B)
  : St S B :=
  match xs with
  | [] => ret b
  | x :: xs' => b' <- body b x ;; for_fold xs' body b'
  end.

(** [assert c]; [dbg] is Python's [__debug__], false under [python -O]. *)
Definition py_assert {S} (dbg c : bool) : St S unit :=
  if dbg && negb c then raise AssertionError else ret tt.

(** ** Python values *)

(** Elements of [user_game_ids].  The annotation says [list[int]], which
    Python does not enforce; [add_game] looks a string up in it. *)
Inductive pyval : Set :=
| PInt (z : Z)
| PStr (s : string).

Definition pyval_eqb (a b : pyval) : bool :=
  match a, b with
  | PInt x, PInt y => x =? y
  | PStr s, PStr t => String.eqb s t
  | _, _ => false
  end.

(** [x in l] on a list *)
Definition py_in (x : pyval) (l : list pyval) : bool := existsb (pyval_eqb x) l.

Definition is_int (v : pyval) : bool :=
  match v with PInt _ => true | PStr _ => false end.

(** [str.lower], on ASCII letters.  Python lower-cases every cased
    character of Unicode; the two agree on strings of ASCII characters
    ([is_ascii] below), and the statement that depends on the value of
    [lower] is made for those. *)
Definition ascii_lower (c : ascii) : ascii :=
  let n := nat_of_ascii c in
  if (Nat.leb 65 n && Nat.leb n 90)%bool then ascii_of_nat (n + 32) else c.

Fixpoint lower (s : string) : string :=
  match s with
  | EmptyString => EmptyString
  | String c s' => String (ascii_lower c) (lower s')
  end.

(** What [len] can be applied to in this module: a list, or, in
    [genre_count], the builtin type object [list]. *)
Inductive len_arg : Type :=
| LenList {A} (l : list A)
| LenBuiltinType (name : string).

Definition py_len {S} (x : len_arg) : St S Z :=
  match x with
  | LenList l => ret (Z.of_nat (length l))
  | LenBuiltinType _ => raise TypeError
  end.

(** Conversion of an [int] to [float]; exact up to [2^53] in absolute
    value ([exact_int] below), which covers the ratios (0..100) and the
    list lengths the module divides. *)
Definition Z2F (z : Z) : float :=
  match z with
  | Z0 => 0%float
  | Zpos _ => PrimFloat.of_uint63 (Uint63.of_Z z)
  | Zneg p => PrimFloat.opp (PrimFloat.of_uint63 (Uint63.of_Z (Zpos p)))
  end.

(** [a / b] on two ints.  For exact operands this is Python's result;
    beyond them Python rounds the exact quotient and raises
    [OverflowError] when it is out of the range of [float], which is
    not modelled: the statement that tells the kinds of exception apart
    is made for exact operands ([exact_operands] below). *)
Definition int_truediv {S} (a b : Z) : St S float :=
  if b =? 0 then raise ZeroDivisionError else ret (Z2F a / Z2F b)%float.

(** [a / b] on two floats *)
Definition float_truediv {S} (a b : float) : St S float :=
  if PrimFloat.eqb b 0%float then raise ZeroDivisionError else ret (a / b)%float.

(** ** Objects *)

(** [rating] is [None] while the attribute has not been assigned:
    [Game.__init__] does not set it. *)
Record Game : Type := mkGame {
  name : string;
  game_id : Z;
  genres : list string;
  price : float;
  positive_ratio : Z;
  rating : option float
}.

(** [game] and [neighbours] hold references (heap indices). *)
Record GameNode : Type := mkGameNode {
  game : nat;
  neighbours : list nat
}.

(** A [dict] keyed by game id, in insertion order. *)
Definition dict : Type := list (Z * nat).

Fixpoint dict_get (k : Z) (d : dict) : option nat :=
  match d with
  | [] => None
  | (k', v) :: d' => if k' =? k then Some v else dict_get k d'
  end.

(** [d[k] = v]: an existing key keeps its place, a new key goes last. *)
Fixpoint dict_set (k : Z) (v : nat) (d : dict) : dict :=
  match d with
  | [] => [(k, v)]
  | (k', v') :: d' => if k' =? k then (k, v) :: d' else (k', v') :: dict_set k v d'
  end.

Definition dict_keys (d : dict) : list Z := map fst d.

(** [_nodes] and [_user_nodes] are [None] while the attribute does not
    exist on the instance. *)
Record GameGraph : Type := mkGameGraph {
  user_game_ids : list pyval;
  user_game_genres : list string;
  user_max_price : float;
  _nodes : option dict;
  _user_nodes : option dict
}.

Record world : Type := mkWorld {
  games : list Game;
  nodes : list GameNode;
  self : GameGraph
}.

Definition M (A : Type) : Type := St world A.

Definition no_game : Game := mkGame EmptyString 0 [] 0%float 0 None.
Definition no_node : GameNode := mkGameNode 0 [].

(** Dereferencing.  A reference held by a Python object always denotes a
    live object, so the defaults stand for nothing in a run. *)
Definition game_at (w : world) (r : nat) : Game := default no_game (games w !! r).
Definition node_at (w : world) (r : nat) : GameNode := default no_node (nodes w !! r).

Definition set_self (g : GameGraph) (w : world) : world :=
  mkWorld (games w) (nodes w) g.
Definition set_nodes_heap (h : list GameNode) (w : world) : world :=
  mkWorld (games w) h (self w).
Definition set_games_heap (h : list Game) (w : world) : world :=
  mkWorld h (nodes w) (self w).

Definition read_game (r : nat) : M Game := fun w => Ok (game_at w r) w.
Definition read_node (r : nat) : M GameNode := fun w => Ok (node_at w r) w.
Definition read_self : M GameGraph := fun w => Ok (self w) w.

(** [self._nodes] and [self._user_nodes] as expressions *)
Definition attr_nodes : M dict := fun w =>
  match _nodes (self w) with
  | Some d => Ok d w
  | None => Raise AttributeError w
  end.

Definition attr_user_nodes : M dict := fun w =>
  match _user_nodes (self w) with
  | Some d => Ok d w
  | None => Raise AttributeError w
  end.

(** [d[k]] as an expression *)
Definition subscript (d : dict) (k : Z) : M nat :=
  match dict_get k d with
  | Some v => ret v
  | None => raise KeyError
  end.

(** ** [GameNode.__init__] and [GameGraph.__init__] *)

Definition new_GameNode (game : nat) : M nat := fun w =>
  Ok (length (nodes w)) (set_nodes_heap (nodes w ++ [mkGameNode game []]) w).

(** The constructor assigns the three profile attributes and nothing else. *)
Definition new_GameGraph (ids : list pyval) (user_genres : list string)
    (max_price : float) : GameGraph :=
  mkGameGraph ids user_genres max_price None None.

(** ** [GameGraph.add_game] *)

Definition nodes_setitem (k : Z) (v : nat) : M unit := fun w =>
  match _nodes (self w) with
  | None => Raise AttributeError w
  | Some d =>
      let g := self w in
      Ok tt (set_self (mkGameGraph (user_game_ids g) (user_game_genres g)
                         (user_max_price g) (Some (dict_set k v d)) (_user_nodes g)) w)
  end.

Definition user_nodes_setitem (k : Z) (v : nat) : M unit := fun w =>
  match _user_nodes (self w) with
  | None => Raise AttributeError w
  | Some d =>
      let g := self w in
      Ok tt (set_self (mkGameGraph (user_game_ids g) (user_game_genres g)
                         (user_max_price g) (_nodes g) (Some (dict_set k v d))) w)
  end.

Definition add_game (game : nat) : M unit :=
  g <- read_game game ;;
  let game_id := game_id g in
  game_node <- new_GameNode game ;;
  nodes_setitem game_id game_node ;;;
  this <- read_self ;;
  if py_in (PStr (lower (name g))) (user_game_ids this)
  then user_nodes_setitem game_id game_node
  else ret tt.

(** ** [GameGraph.add_edge] and [GameGraph.add_all_edges] *)

Definition push_neighbour (x : nat) (n : GameNode) : GameNode :=
  mkGameNode (game n) (neighbours n ++ [x]).

(** [node.neighbours.append(x)] *)
Definition neighbours_append (node x : nat) : M unit := fun w =>
  Ok tt (set_nodes_heap (alter (push_neighbour x) node (nodes w)) w).

Definition add_edge (game1 user_node : nat) : M unit :=
  neighbours_append game1 user_node ;;;
  neighbours_append user_node game1.

Definition add_all_edges : M unit :=
  users <- attr_user_nodes ;;
  for_each (dict_keys users) (fun user_id =>
    all <- attr_nodes ;;
    for_each (dict_keys all) (fun other_id =>
      un <- attr_user_nodes ;;
      user_node <- subscript un user_id ;;
      un' <- attr_user_nodes ;;
      other_node <- subscript un' other_id ;;
      if negb (user_node =? other_node)%nat
      then add_edge other_node user_node
      else ret tt)).

(** ** [Game.genre_count] *)

Definition str_in (s : string) (l : list string) : bool := existsb (String.eqb s) l.

(** The loop builds [list_so_far]; the [return] then takes [len] of the
    builtin [list], not of [list_so_far]. *)
Definition genre_count (g : Game) (genre_collection : list string) : M Z :=
  let lowered_list := map lower genre_collection in
  let list_so_far :=
    fold_left (fun acc genre =>
                 if str_in (lower genre) lowered_list then acc ++ [genre] else acc)
              (genres g) [] in
  py_len (LenBuiltinType "list").

(** ** [max_price], [max_positive_ratio], [user_genres] *)

Definition node_of_id (game_id : Z) : M GameNode :=
  d <- attr_nodes ;;
  r <- subscript d game_id ;;
  read_node r.

Definition user_node_of_id (game_id : Z) : M GameNode :=
  d <- attr_user_nodes ;;
  r <- subscript d game_id ;;
  read_node r.

Definition max_price : M float :=
  all <- attr_nodes ;;
  for_fold (dict_keys all) (fun max_so_far game_id =>
    node <- node_of_id game_id ;;
    g <- read_game (game node) ;;
    if PrimFloat.ltb max_so_far (price g) then ret (price g) else ret max_so_far)
  0%float.

Definition max_positive_ratio : M Z :=
  all <- attr_nodes ;;
  for_fold (dict_keys all) (fun max_so_far game_id =>
    node <- node_of_id game_id ;;
    g <- read_game (game node) ;;
    if max_so_far <? positive_ratio g then ret (positive_ratio g) else ret max_so_far)
  0.

(** [set.add] on a set of strings.  [list(genres_so_far)] comes out in an
    unspecified order; the callers use its length and membership only. *)
Definition str_set_add (s : list string) (x : string) : list string :=
  if str_in x s then s else s ++ [x].

Definition is_nil {A} (l : list A) : bool :=
  match l with [] => true | _ => false end.

Definition user_genres : M (list string) :=
  this <- read_self ;;
  if negb (is_nil (user_game_genres this)) then ret (user_game_genres this)
  else
    users <- attr_user_nodes ;;
    for_fold (dict_keys users) (fun genres_so_far game_id =>
      node <- user_node_of_id game_id ;;
      g <- read_game (game node) ;;
      ret (fold_left str_set_add (genres g) genres_so_far))
    [].

(** ** [compute_score] and [assign_all_scores] *)

Definition with_rating (r : float) (g : Game) : Game :=
  mkGame (name g) (game_id g) (genres g) (price g) (positive_ratio g) (Some r).

(** [game.rating = r] *)
Definition set_rating (game : nat) (r : float) : M unit := fun w =>
  Ok tt (set_games_heap (alter (with_rating r) game (games w)) w).

Definition rating_price_weight : float := 0.6%float.
Definition neighbour_weight : float := 0.3%float.
Definition genre_weight : float := 0.1%float.

Definition compute_score (dbg : bool) (game_node : nat) : M unit :=
  py_assert dbg
    (PrimFloat.eqb (rating_price_weight + neighbour_weight + genre_weight) 1)%float ;;;
  user_genres <- user_genres ;;
  node <- read_node game_node ;;
  let game := game node in
  max_price <- max_price ;;
  max_ratio <- max_positive_ratio ;;
  g <- read_game game ;;
  q1 <- int_truediv (positive_ratio g) max_ratio ;;
  q2 <- float_truediv (max_price - price g)%float max_price ;;
  let rating_price := (q1 * q2 * rating_price_weight)%float in
  node' <- read_node game_node ;;
  n_neighbours <- py_len (LenList (neighbours node')) ;;
  users <- attr_user_nodes ;;
  n_users <- py_len (LenList users) ;;
  q3 <- int_truediv n_neighbours n_users ;;
  let neighbour_score := (q3 * neighbour_weight)%float in
  count <- genre_count g user_genres ;;
  n_genres <- py_len (LenList user_genres) ;;
  q4 <- int_truediv count n_genres ;;
  let genre_score := (q4 * genre_weight)%float in
  this <- read_self ;;
  if PrimFloat.ltb (user_max_price this) (price g) then set_rating game 0%float
  else
    py_assert dbg
      (PrimFloat.leb (rating_price + neighbour_score + genre_score) 1)%float ;;;
    set_rating game (rating_price + neighbour_score + genre_score)%float.

Definition assign_all_scores (dbg : bool) : M unit :=
  all <- attr_nodes ;;
  for_each (dict_keys all) (fun game_id =>
    d <- attr_nodes ;;
    r <- subscript d game_id ;;
    compute_score dbg r).

(** ** Sets of objects *)

(** The two helpers work on a [set] whose members are compared by
    identity.  A set is represented by its members in iteration order. *)
Inductive obj : Set :=
| OGame (i : nat)
| ONode (i : nat).

Global Instance obj_eq_dec : EqDecision obj.
Proof. solve_decision. Defined.

Definition obj_in (o : obj) (s : list obj) : bool := bool_decide (o ∈ s).

(** [o.rating]: a [GameNode] has no such attribute, and neither has a
    [Game] that was never scored. *)
Definition attr_rating (o : obj) : M float :=
  match o with
  | ONode _ => raise AttributeError
  | OGame i =>
      g <- read_game i ;;
      match rating g with
      | Some r => ret r
      | None => raise AttributeError
      end
  end.

Fixpoint discard (o : obj) (s : list obj) : list obj :=
  match s with
  | [] => []
  | x :: s' => if bool_decide (x = o) then s' else x :: discard o s'
  end.

(** [s.remove(x)], returning the member removed and the set left.  The
    members that stay keep their relative order.  [x] is [None] when it
    is Python's [None], which is a member of neither candidate set. *)
Definition set_remove (x : option obj) (s : list obj) : M (obj * list obj) :=
  match x with
  | None => raise KeyError
  | Some o => if obj_in o s then ret (o, discard o s) else raise KeyError
  end.

(** ** [highest_scoring_game] and [sort_games] *)

Definition highest_step (acc : float * option obj) (game : obj)
  : M (float * option obj) :=
  r <- attr_rating game ;;
  if PrimFloat.leb (fst acc) r then ret (r, Some game) else ret acc.

Definition highest_scoring_game (game_list : list obj) : M (option obj) :=
  acc <- for_fold game_list highest_step (0%float, None) ;;
  ret (snd acc).

Definition item (l : list obj) (i : nat) : M obj :=
  match l !! i with
  | Some o => ret o
  | None => raise IndexError
  end.

(** [l[i], l[j] = l[j], l[i]] *)
Definition swap (i j : nat) (l : list obj) : list obj :=
  match l !! i, l !! j with
  | Some a, Some b => <[i := b]> (<[j := a]> l)
  | _, _ => l
  end.

Definition sort_inner (games : list obj) (index2 : nat) : M (list obj) :=
  a <- item games index2 ;;
  ra <- attr_rating a ;;
  b <- item games (index2 - 1) ;;
  rb <- attr_rating b ;;
  if PrimFloat.ltb rb ra then ret (swap index2 (index2 - 1) games) else ret games.

Definition sort_outer (games : list obj) (index1 : nat) : M (list obj) :=
  a <- item games index1 ;;
  ra <- attr_rating a ;;
  b <- item games (index1 + 1) ;;
  rb <- attr_rating b ;;
  if PrimFloat.ltb ra rb
  then for_fold (rev (seq 1 index1)) sort_inner (swap index1 (index1 + 1) games)
  else ret games.

Definition sort_games (games : list obj) : M (list obj) :=
  for_fold (seq 0 (length games - 1)) sort_outer games.

(** ** [top_games] and [highest_scoring_games] *)

Section Ranker.

(** [set_iter adds] is the iteration order of the set obtained from the
    empty set by adding the objects [adds] one after the other: with
    identity hashes it depends on where the objects live. *)
Variable set_iter : list obj -> list obj.

(** [while len(actual) != total or len(possible) == 0] *)
Fixpoint top_games_loop (fuel : nat) (total : Z) (possible actual : list obj)
  : M (list obj) :=
  if negb (Z.of_nat (length actual) =? total) || (length possible =? 0)%nat then
    match fuel with
    | O => raise FuelExhausted
    | S fuel' =>
        game <- highest_scoring_game possible ;;
        rm <- set_remove game possible ;;
        top_games_loop fuel' total (snd rm) (actual ++ [fst rm])
    end
  else ret actual.

Definition top_games (total : Z) : M (list obj) :=
  all <- attr_nodes ;;
  adds <- for_fold (dict_keys all) (fun adds game_id =>
            node <- node_of_id game_id ;;
            ret (adds ++ [OGame (game node)])) [] ;;
  let possible_suggestions := set_iter adds in
  actual <- top_games_loop (S (length possible_suggestions)) total
              possible_suggestions [] ;;
  sort_games actual.

(** [while possible != set() or len(actual) == total_games] *)
Fixpoint neighbour_loop (fuel : nat) (total_games : Z) (possible actual : list obj)
  : M (list obj) :=
  if negb (is_nil possible) || (Z.of_nat (length actual) =? total_games) then
    match fuel with
    | O => raise FuelExhausted
    | S fuel' =>
        game <- highest_scoring_game possible ;;
        rm <- set_remove game possible ;;
        neighbour_loop fuel' total_games (snd rm) (actual ++ [fst rm])
    end
  else ret actual.

(** The membership test is made on the node, the member added is its game. *)
Definition pool_step (adds : list obj) (neighbour : nat) : M (list obj) :=
  if negb (obj_in (ONode neighbour) adds)
  then nb <- read_node neighbour ;; ret (adds ++ [OGame (game nb)])
  else ret adds.

Definition highest_scoring_games (total_games : Z) : M (list obj) :=
  users <- attr_user_nodes ;;
  adds <- for_fold (dict_keys users) (fun adds game_id =>
            node <- user_node_of_id game_id ;;
            for_fold (neighbours node) pool_step adds) [] ;;
  let possible_suggestions := set_iter adds in
  if negb (is_nil possible_suggestions) then
    actual <- neighbour_loop (S (length possible_suggestions)) total_games
                possible_suggestions [] ;;
    sort_games actual
  else top_games total_games.

End Ranker.

(** * Vocabulary of the statements *)

(** ** Computations that only read, that always raise, that end *)

Definition read_only {A} (c : M A) : Prop := forall w, state_of (c w) = w.

Definition always_raises {A} (c : M A) : Prop :=
  forall w, exists e, c w = Raise e w.

(** A computation that never reports an exhausted loop bound. *)
Definition within_fuel {A} (c : M A) : Prop :=
  forall w, raised (c w) <> Some FuelExhausted.

(** The caller inserts the records one after the other, going on after a
    failed insertion. *)
Definition insert_all (l : list nat) (w : world) : world :=
  fold_left (fun w game => state_of (add_game game w)) l w.

(** ** What [add_all_edges] does to the neighbour lists *)

(** The body of the inner loop of [add_all_edges]. *)
Definition edge_body (user_id other_id : Z) : M unit :=
  un <- attr_user_nodes ;;
  user_node <- subscript un user_id ;;
  un' <- attr_user_nodes ;;
  other_node <- subscript un' other_id ;;
  if negb (user_node =? other_node)%nat
  then add_edge other_node user_node
  else ret tt.

(** An edit [(n, x)] is one [n.neighbours.append(x)]. *)
Definition apply_edits (ops : list (nat * nat)) (h : list GameNode) : list GameNode :=
  fold_left (fun h op => alter (push_neighbour (snd op)) (fst op) h) ops h.

(** The edits of the inner loop for one [user_id], and whether the loop
    runs to its end; it stops at the first id that [_user_nodes] lacks. *)
Fixpoint inner_plan (users : dict) (user_id : Z) (ks : list Z)
  : list (nat * nat) * bool :=
  match ks with
  | [] => ([], true)
  | other_id :: ks' =>
      match dict_get user_id users, dict_get other_id users with
      | Some user_node, Some other_node =>
          let step := if negb (user_node =? other_node)%nat
                      then [(other_node, user_node); (user_node, other_node)]
                      else [] in
          let rest := inner_plan users user_id ks' in
          (step ++ fst rest, snd rest)
      | _, _ => ([], false)
      end
  end.

Fixpoint outer_plan (users : dict) (all_ids : list Z) (uks : list Z)
  : list (nat * nat) * bool :=
  match uks with
  | [] => ([], true)
  | user_id :: uks' =>
      let first := inner_plan users user_id all_ids in
      if snd first
      then let rest := outer_plan users all_ids uks' in (fst first ++ fst rest, snd rest)
      else (fst first, false)
  end.

Definition finish (plan : list (nat * nat) * bool) : M unit := fun w =>
  let w' := set_nodes_heap (apply_edits (fst plan) (nodes w)) w in
  if snd plan then Ok tt w' else Raise KeyError w'.

(** The neighbours that the edits [ops] append to node [r], in order. *)
Definition appended (ops : list (nat * nat)) (r : nat) : list nat :=
  map snd (filter (fun op => fst op = r) ops).

(** ** The order of ratings *)

(** Binary64 values other than NaN are ordered like these triples: the
    class (-inf, negative, zero, positive, +inf), then exponent and
    mantissa, both negated for a negative number. *)
Definition fkey (f : spec_float) : Z * Z * Z :=
  match f with
  | S754_zero _ => (0, 0, 0)
  | S754_infinity true => (-2, 0, 0)
  | S754_infinity false => (2, 0, 0)
  | S754_nan => (3, 0, 0)
  | S754_finite false m e => (1, e, Zpos m)
  | S754_finite true m e => (-1, - e, Zneg m)
  end.

Definition key_le (x y : Z * Z * Z) : Prop :=
  let '(a, b, c) := x in
  let '(a', b', c') := y in
  a < a' \/ (a = a' /\ (b < b' \/ (b = b' /\ c <= c'))).

Definition is_nan (f : spec_float) : bool :=
  match f with S754_nan => true | _ => false end.

Definition number (x : float) : Prop := is_nan (Prim2SF x) = false.

(** [o.rating] as a value, when the attribute exists. *)
Definition rate (w : world) (o : obj) : option float :=
  match o with
  | OGame i => rating (game_at w i)
  | ONode _ => None
  end.

(** A candidate that was given a score that is a number and not negative. *)
Definition scored (w : world) (o : obj) : Prop :=
  exists r, rate w o = Some r /\ PrimFloat.leb 0 r = true.

Definition scoredb (w : world) (o : obj) : bool :=
  match rate w o with
  | Some r => PrimFloat.leb 0 r
  | None => false
  end.

(** [a.rating >= b.rating] *)
Definition at_least (w : world) (a b : obj) : Prop :=
  exists ra rb, rate w a = Some ra /\ rate w b = Some rb /\ PrimFloat.leb rb ra = true.

(** [a.rating == b.rating] *)
Definition tied (w : world) (a b : obj) : Prop :=
  exists ra rb, rate w a = Some ra /\ rate w b = Some rb /\ PrimFloat.eqb ra rb = true.

(** [selected w p picks]: [picks] were taken out of [p] one after the
    other, each being the last of the highest rated members left. *)
Inductive selected (w : world) : list obj -> list obj -> Prop :=
| selected_nil p : selected w p []
| selected_cons l1 g l2 rest :
    (forall x, x ∈ l1 ++ l2 -> at_least w g x) ->
    (forall x, x ∈ l2 -> ~ at_least w x g) ->
    selected w (l1 ++ l2) rest ->
    selected w (l1 ++ g :: l2) (g :: rest).

(** The games of the nodes of a mapping, in the order of its keys. *)
Definition games_of (w : world) (d : dict) : list obj :=
  map (fun kr => OGame (game (node_at w (snd kr)))) d.

(** No anchor has a neighbour: the neighbour-based pool is empty. *)
Definition pool_empty (w : world) (users : dict) : bool :=
  forallb (fun kr => is_nil (neighbours (node_at w (snd kr)))) users.

(** ** Stores used as examples *)

(** The scenario of the specification: A (price 10, ratio 80) is owned,
    B (price 60, ratio 90) is not, the ceiling is 50. *)
Definition scenario_games : list Game :=
  [ mkGame "A" 1 ["RPG"%string] 10%float 80 None;
    mkGame "B" 2 ["RPG"%string] 60%float 90 None ].

Definition scenario : world :=
  mkWorld scenario_games
          [mkGameNode 0 [1%nat]; mkGameNode 1 [0%nat]]
          (mkGameGraph [PInt 1] [] 50%float
             (Some [(1, 0%nat); (2, 1%nat)]) (Some [(1, 0%nat)])).

Definition no_anchor_catalog : world :=
  mkWorld [mkGame "A" 1 ["RPG"%string] 10%float 80 None]
          [mkGameNode 0 []]
          (mkGameGraph [] [] 50%float (Some [(1, 0%nat)]) (Some [])).

Definition owner_of_1 : world :=
  mkWorld scenario_games [] (mkGameGraph [PInt 1] [] 50%float (Some []) (Some [])).

Definition catalog_with_1 : world :=
  mkWorld scenario_games [mkGameNode 0 []]
          (mkGameGraph [PInt 1] [] 50%float (Some [(1, 0%nat)]) (Some [])).

(** A user who gave the names of the games, and an empty graph whose two
    mappings exist. *)
Definition by_name (owned : list string) : world :=
  mkWorld scenario_games []
          (mkGameGraph (map PStr owned) [] 50%float (Some []) (Some [])).

(** A is owned, B is not; both inserted. *)
Definition one_anchor : world := insert_all [0%nat; 1%nat] (by_name ["a"%string]).

(** A and B are owned; both inserted. *)
Definition two_anchors : world :=
  insert_all [0%nat; 1%nat] (by_name ["a"%string; "b"%string]).

(** Three rated games without anchors: A and C are tied below B. *)
Definition rated_games : list Game :=
  [ mkGame "A" 1 ["RPG"%string] 10%float 50 (Some 0.5%float);
    mkGame "B" 2 ["RPG"%string] 20%float 90 (Some 0.9%float);
    mkGame "C" 3 ["RPG"%string] 30%float 50 (Some 0.5%float) ].

Definition rated_catalog : world :=
  mkWorld rated_games
          [mkGameNode 0 []; mkGameNode 1 []; mkGameNode 2 []]
          (mkGameGraph [] [] 50%float
             (Some [(1, 0%nat); (2, 1%nat); (3, 2%nat)]) (Some [])).

(** A graph whose mappings exist and are empty. *)
Definition empty_catalog : world :=
  mkWorld [] [] (mkGameGraph [] [] 50%float (Some []) (Some [])).

(** A and B, both rated 0.5, both anchors and linked as [add_all_edges]
    links two anchors. *)
Definition rated_linked : world :=
  mkWorld [ mkGame "A" 1 ["RPG"%string] 10%float 50 (Some 0.5%float);
            mkGame "B" 2 ["RPG"%string] 20%float 50 (Some 0.5%float) ]
          [mkGameNode 0 [1; 1]%nat; mkGameNode 1 [0; 0]%nat]
          (mkGameGraph [PStr "a"; PStr "b"] [] 50%float
             (Some [(1, 0%nat); (2, 1%nat)]) (Some [(1, 0%nat); (2, 1%nat)])).

(** * The rest of the module *)

(** ** [GameGraph.edges_exist] *)

(** The loop returns from inside at the first anchor with a neighbour. *)
Fixpoint edges_exist_loop (ids : list Z) : M bool :=
  match ids with
  | [] => ret false
  | game_id :: ids' =>
      node <- user_node_of_id game_id ;;
      if negb (is_nil (neighbours node)) then ret true else edges_exist_loop ids'
  end.

Definition edges_exist : M bool :=
  users <- attr_user_nodes ;;
  edges_exist_loop (dict_keys users).

(** ** [generate_graph] *)

Definition with_genres (gs : list string) (g : Game) : Game :=
  mkGame (name g) (game_id g) gs (price g) (positive_ratio g) (rating g).

(** [game.genres = gs] *)
Definition set_genres (game : nat) (gs : list string) : M unit := fun w =>
  Ok tt (set_games_heap (alter (with_genres gs) game (games w)) w).

(** [game_graph = GameGraph(...)]: the graph the function works on from
    here on. *)
Definition bind_graph (g : GameGraph) : M unit := fun w => Ok tt (set_self g w).

(** The two readers are taken by their results: [json_result] is the
    list of (id, tags) pairs of [read_metadata_json], [csv_result] the
    mapping from id to [Game] object of [read_data_csv]. *)
Definition generate_graph (dbg : bool) (json_result : list (Z * list string))
    (csv_result : dict) (user_games : list pyval) (user_genres : list string)
    (max_price : float) : M GameGraph :=
  bind_graph (new_GameGraph user_games user_genres max_price) ;;;
  for_each json_result (fun metadata =>
    game <- subscript csv_result (fst metadata) ;;
    set_genres game (snd metadata) ;;;
    add_game game) ;;;
  add_all_edges ;;;
  assign_all_scores dbg ;;;
  read_self.

(** * Vocabulary of the further statements *)

(** The game objects the nodes of a mapping refer to. *)
Definition game_of (w : world) (r : nat) : Game := game_at w (game (node_at w r)).

(** The pure counterparts of the loops of [max_price] and
    [max_positive_ratio]. *)
Definition price_step (w : world) (m : float) (kr : Z * nat) : float :=
  if PrimFloat.ltb m (price (game_of w (snd kr))) then price (game_of w (snd kr)) else m.

Definition ratio_step (w : world) (m : Z) (kr : Z * nat) : Z :=
  if m <? positive_ratio (game_of w (snd kr)) then positive_ratio (game_of w (snd kr)) else m.

(** The genres [user_genres] collects from the anchors. *)
Definition genres_step (w : world) (acc : list string) (kr : Z * nat) : list string :=
  fold_left str_set_add (genres (game_of w (snd kr))) acc.

(** The representation invariants of [GameGraph]: every key of [_nodes]
    is the id of the game of its node, every key of [_user_nodes] is a
    key of [_nodes]; and every node of [_nodes] is a live object. *)
Definition rep_inv (w : world) : Prop :=
  forall nd, _nodes (self w) = Some nd ->
    (forall k r, dict_get k nd = Some r ->
       (r < length (nodes w))%nat /\ game_id (game_of w r) = k) /\
    (forall ud k r, _user_nodes (self w) = Some ud ->
       dict_get k ud = Some r -> dict_get k nd <> None).

(** The representation invariant of [GameNode]. *)
Definition symmetric (w : world) : Prop :=
  forall a b, b ∈ neighbours (node_at w a) -> a ∈ neighbours (node_at w b).

(** The anchors' nodes are live objects. *)
Definition anchors_live (w : world) (users : dict) : Prop :=
  forall k r, dict_get k users = Some r -> (r < length (nodes w))%nat.

Definition anchors_liveb (w : world) (users : dict) : bool :=
  forallb (fun kr => (snd kr <? length (nodes w))%nat) users.

(** A candidate whose rating is set and is not NaN. *)
Definition numbered (w : world) (o : obj) : Prop :=
  exists r, rate w o = Some r /\ number r.

Definition numberedb (w : world) (o : obj) : bool :=
  match rate w o with
  | Some r => negb (is_nan (Prim2SF r))
  | None => false
  end.

Definition ratedb (w : world) (o : obj) : bool :=
  match rate w o with Some _ => true | None => false end.

(** In descending order of rating. *)
Definition descending (w : world) (l : list obj) : Prop :=
  forall i a b, l !! i = Some a -> l !! (i + 1)%nat = Some b -> at_least w a b.

(** What [highest_scoring_games] adds to its candidate set: the games of
    the neighbours of the anchors. *)
Definition pool_of (w : world) (users : dict) : list obj :=
  flat_map (fun kr => map (fun nb => OGame (game (node_at w nb)))
                          (neighbours (node_at w (snd kr)))) users.

(** ** Further stores used as examples *)

(** The anchor A linked to B and C, all three rated. *)
Definition rated_star : world :=
  mkWorld rated_games
          [mkGameNode 0 [1; 2]%nat; mkGameNode 1 [0]%nat; mkGameNode 2 [0]%nat]
          (mkGameGraph [PStr "a"] [] 50%float
             (Some [(1, 0%nat); (2, 1%nat); (3, 2%nat)]) (Some [(1, 0%nat)])).

(** Every member is rated at least as high as every later one. *)
Fixpoint ordered (w : world) (l : list obj) : Prop :=
  match l with
  | [] => True
  | x :: l' => Forall (at_least w x) l' /\ ordered w l'
  end.

(** * Vocabulary of the remaining statements *)


(** A string of ASCII characters.  On such a string [lower] above is
    [str.lower]: Python lower-cases the letters A to Z and leaves the
    other ASCII characters alone. *)
Fixpoint is_ascii (s : string) : bool :=
  match s with
  | EmptyString => true
  | String c s' => Nat.ltb (nat_of_ascii c) 128 && is_ascii s'
  end.

(** An [int] that [float] represents exactly.  On two such operands
    [int_truediv] above is Python's [/]: the quotient of the two doubles,
    which cannot overflow. *)
Definition exact_int (z : Z) : bool := (- 2 ^ 53 <=? z) && (z <=? 2 ^ 53).

(** The integers that [compute_score] divides for node [n] are exact:
    the ratio of every game of the graph and of [n]'s game, the number
    of [n]'s neighbours and the number of anchors. *)
Definition exact_operands (w : world) (all users : dict) (n : nat) : bool :=
  forallb (fun kr => exact_int (positive_ratio (game_of w (snd kr)))) all
  && exact_int (positive_ratio (game_of w n))
  && exact_int (Z.of_nat (length (neighbours (node_at w n))))
  && exact_int (Z.of_nat (length users)).


(** ** More stores used as examples *)

(** Four rated games without anchors: B is the best, A and C are tied
    below it, D is the worst. *)
Definition rated_four : world :=
  mkWorld [ mkGame "A" 1 ["RPG"%string] 10%float 50 (Some 0.5%float);
            mkGame "B" 2 ["RPG"%string] 20%float 90 (Some 0.9%float);
            mkGame "C" 3 ["RPG"%string] 30%float 50 (Some 0.5%float);
            mkGame "D" 4 ["RPG"%string] 40%float 10 (Some 0.1%float) ]
          [mkGameNode 0 []; mkGameNode 1 []; mkGameNode 2 []; mkGameNode 3 []]
          (mkGameGraph [] [] 50%float
             (Some [(1, 0%nat); (2, 1%nat); (3, 2%nat); (4, 3%nat)]) (Some [])).

(** A and B are owned, C is not; all three inserted. *)
Definition two_of_three : world :=
  insert_all [0; 1; 2]%nat
    (mkWorld rated_games []
       (mkGameGraph [PStr "a"; PStr "b"] [] 50%float (Some []) (Some []))).

(** * Properties *)

Lemma ro_ret {A} (a : A) : read_only (ret a).
Proof. intros w; reflexivity. Qed.

Lemma ro_raise {A} (e : exn) : read_only (@raise world A e).
Proof. intros w; reflexivity. Qed.

Lemma ro_bind {A B} (c : M A) (k : A -> M B) :
  read_only c -> (forall a, read_only (k a)) -> read_only (bind c k).
Proof.
  intros Hc Hk w. unfold bind. specialize (Hc w).
  destruct (c w) as [a s|e s]; simpl in Hc; subst s; [apply Hk | reflexivity].
Qed.

Lemma ro_for_fold {A B} (xs : list A) (body : B -> A -> M B) :
  (forall b x, read_only (body b x)) -> forall b, read_only (for_fold xs body b).
Proof.
  intros Hb. induction xs as [|x xs IH]; intros b; simpl.
  - apply ro_ret.
  - apply ro_bind; auto.
Qed.

Lemma ro_for_each {A} (xs : list A) (body : A -> M unit) :
  (forall x, read_only (body x)) -> read_only (for_each xs body).
Proof.
  intros Hb. induction xs as [|x xs IH]; simpl.
  - apply ro_ret.
  - apply ro_bind; auto.
Qed.

Lemma ro_read_game r : read_only (read_game r).
Proof. intros w; reflexivity. Qed.

Lemma ro_read_node r : read_only (read_node r).
Proof. intros w; reflexivity. Qed.

Lemma ro_read_self : read_only read_self.
Proof. intros w; reflexivity. Qed.

Lemma ro_attr_nodes : read_only attr_nodes.
Proof. intros w; unfold attr_nodes; destruct (_nodes (self w)); reflexivity. Qed.

Lemma ro_attr_user_nodes : read_only attr_user_nodes.
Proof. intros w; unfold attr_user_nodes; destruct (_user_nodes (self w)); reflexivity. Qed.

Lemma ro_subscript d k : read_only (subscript d k).
Proof. unfold subscript; destruct (dict_get k d); [apply ro_ret | apply ro_raise]. Qed.

Lemma ro_py_len x : read_only (py_len x).
Proof. destruct x; [apply ro_ret | apply ro_raise]. Qed.

Lemma ro_py_assert dbg c : read_only (py_assert dbg c).
Proof. unfold py_assert; destruct (dbg && negb c); [apply ro_raise | apply ro_ret]. Qed.

Lemma ro_int_truediv a b : read_only (int_truediv a b).
Proof. unfold int_truediv; destruct (b =? 0); [apply ro_raise | apply ro_ret]. Qed.

Lemma ro_float_truediv a b : read_only (float_truediv a b).
Proof. unfold float_truediv; destruct (PrimFloat.eqb b 0); [apply ro_raise | apply ro_ret]. Qed.

Lemma ro_attr_rating o : read_only (attr_rating o).
Proof.
  destruct o as [i|i]; simpl; [|apply ro_raise].
  apply ro_bind; [apply ro_read_game|]. intros g.
  destruct (rating g); [apply ro_ret | apply ro_raise].
Qed.

Lemma ro_item l i : read_only (item l i).
Proof. unfold item; destruct (l !! i); [apply ro_ret | apply ro_raise]. Qed.

Lemma ro_set_remove x s : read_only (set_remove x s).
Proof.
  destruct x as [o|]; simpl; [|apply ro_raise].
  destruct (obj_in o s); [apply ro_ret | apply ro_raise].
Qed.

Create HintDb ro discriminated.
#[local] Hint Resolve ro_ret ro_raise ro_read_game ro_read_node ro_read_self
  ro_attr_nodes ro_attr_user_nodes ro_subscript ro_py_len ro_py_assert
  ro_int_truediv ro_float_truediv ro_attr_rating ro_item ro_set_remove : ro.

(** Breaks a computation into its steps, each closed from the database. *)
Ltac ro_steps :=
  repeat first
    [ progress eauto with ro
    | apply ro_bind; [|intros ?]
    | apply ro_for_fold; intros ? ?
    | apply ro_for_each; intros ?
    | match goal with
      | |- read_only (if ?b then _ else _) => destruct b
      | |- read_only (match ?x with _ => _ end) => destruct x
      end ].

Lemma ro_node_of_id k : read_only (node_of_id k).
Proof. unfold node_of_id; ro_steps. Qed.

Lemma ro_user_node_of_id k : read_only (user_node_of_id k).
Proof. unfold user_node_of_id; ro_steps. Qed.

#[local] Hint Resolve ro_node_of_id ro_user_node_of_id : ro.

Lemma ro_max_price : read_only max_price.
Proof. unfold max_price; ro_steps. Qed.

Lemma ro_max_positive_ratio : read_only max_positive_ratio.
Proof. unfold max_positive_ratio; ro_steps. Qed.

Lemma ro_user_genres : read_only user_genres.
Proof. unfold user_genres; ro_steps. Qed.

Lemma ro_highest_scoring_game l : read_only (highest_scoring_game l).
Proof. unfold highest_scoring_game, highest_step; ro_steps. Qed.

Lemma ro_sort_games l : read_only (sort_games l).
Proof. unfold sort_games, sort_outer, sort_inner; ro_steps. Qed.

#[local] Hint Resolve ro_max_price ro_max_positive_ratio ro_user_genres
  ro_highest_scoring_game ro_sort_games : ro.

Lemma ro_outcome {A} (c : M A) (w : world) :
  read_only c -> (exists a, c w = Ok a w) \/ (exists e, c w = Raise e w).
Proof.
  intros H. specialize (H w). destruct (c w) as [a s|e s]; simpl in H; subst s; eauto.
Qed.

Lemma ar_bind_l {A B} (c : M A) (k : A -> M B) :
  always_raises c -> always_raises (bind c k).
Proof. intros H w. destruct (H w) as [e He]. exists e. unfold bind. now rewrite He. Qed.

Lemma ar_bind_r {A B} (c : M A) (k : A -> M B) :
  read_only c -> (forall a, always_raises (k a)) -> always_raises (bind c k).
Proof.
  intros Hc Hk w. unfold bind.
  destruct (ro_outcome c w Hc) as [[a ->]|[e ->]]; [apply Hk | eauto].
Qed.

(** ** The scoring pass *)

(** Line 182: in binary64 the three weights add up to 0.9999999999999999. *)
Lemma weights_do_not_sum_to_one :
  PrimFloat.eqb (rating_price_weight + neighbour_weight + genre_weight) 1 = false.
Proof. vm_compute. reflexivity. Qed.

Lemma genre_count_raises g coll : always_raises (genre_count g coll).
Proof. intros w. exists TypeError. reflexivity. Qed.

Lemma compute_score_debug n w : compute_score true n w = Raise AssertionError w.
Proof.
  unfold compute_score, bind, py_assert.
  rewrite weights_do_not_sum_to_one. reflexivity.
Qed.

Lemma compute_score_raises dbg n : always_raises (compute_score dbg n).
Proof.
  unfold compute_score.
  repeat first
    [ solve [apply ar_bind_l, genre_count_raises]
    | apply ar_bind_r; [solve [ro_steps] | intros ?] ].
Qed.

Lemma dict_get_in_keys k d : k ∈ dict_keys d -> exists v, dict_get k d = Some v.
Proof.
  induction d as [|[k' v'] d IH]; simpl; intros Hin.
  - inversion Hin.
  - destruct (Z.eqb_spec k' k) as [->|Hne]; [eauto|].
    apply elem_of_cons in Hin as [->|Hin]; [congruence | auto].
Qed.

Lemma bind_ok {A B} (c : M A) (k : A -> M B) (a : A) (w w' : world) :
  c w = Ok a w' -> bind c k w = k a w'.
Proof. unfold bind. now intros ->. Qed.

Lemma bind_raise {A B} (c : M A) (k : A -> M B) (e : exn) (w w' : world) :
  c w = Raise e w' -> bind c k w = Raise e w'.
Proof. unfold bind. now intros ->. Qed.

Lemma for_fold_ok {A B} (xs : list A) (body : B -> A -> M B) (w : world) :
  (forall b x, x ∈ xs -> exists b', body b x w = Ok b' w) ->
  forall b, exists b', for_fold xs body b w = Ok b' w.
Proof.
  induction xs as [|x xs IH]; intros Hb b; simpl.
  - eexists; reflexivity.
  - destruct (Hb b x) as [b1 Hb1]; [left|].
    rewrite (bind_ok _ _ _ _ _ Hb1). apply IH. intros b0 y Hy. apply Hb. now right.
Qed.

Lemma node_of_id_ok w d k :
  _nodes (self w) = Some d -> k ∈ dict_keys d -> exists n, node_of_id k w = Ok n w.
Proof.
  intros Hd Hk. destruct (dict_get_in_keys k d Hk) as [r Hr].
  exists (node_at w r). unfold node_of_id, bind, attr_nodes, subscript.
  rewrite Hd, Hr. reflexivity.
Qed.

Lemma max_price_ok w d : _nodes (self w) = Some d -> exists x, max_price w = Ok x w.
Proof.
  intros Hd. unfold max_price.
  assert (Ha : attr_nodes w = Ok d w) by (unfold attr_nodes; now rewrite Hd).
  rewrite (bind_ok _ _ _ _ _ Ha). apply for_fold_ok. intros b k Hk.
  destruct (node_of_id_ok w d k Hd Hk) as [n Hn].
  rewrite (bind_ok _ _ _ _ _ Hn). unfold bind, read_game.
  destruct (PrimFloat.ltb b _); eexists; reflexivity.
Qed.

Lemma max_positive_ratio_ok w d :
  _nodes (self w) = Some d -> exists x, max_positive_ratio w = Ok x w.
Proof.
  intros Hd. unfold max_positive_ratio.
  assert (Ha : attr_nodes w = Ok d w) by (unfold attr_nodes; now rewrite Hd).
  rewrite (bind_ok _ _ _ _ _ Ha). apply for_fold_ok. intros b k Hk.
  destruct (node_of_id_ok w d k Hd Hk) as [n Hn].
  rewrite (bind_ok _ _ _ _ _ Hn). unfold bind, read_game.
  destruct (b <? _); eexists; reflexivity.
Qed.

Lemma user_genres_no_anchor w :
  _user_nodes (self w) = Some [] -> exists l, user_genres w = Ok l w.
Proof.
  intros Hu. unfold user_genres, bind, read_self.
  destruct (user_game_genres (self w)); simpl.
  - unfold attr_user_nodes. rewrite Hu. eexists; reflexivity.
  - eexists; reflexivity.
Qed.

Lemma assign_all_scores_raises dbg w k r d :
  _nodes (self w) = Some ((k, r) :: d) -> exists e, assign_all_scores dbg w = Raise e w.
Proof.
  intros Hd. unfold assign_all_scores.
  assert (Ha : attr_nodes w = Ok ((k, r) :: d) w) by (unfold attr_nodes; now rewrite Hd).
  rewrite (bind_ok _ _ _ _ _ Ha). simpl for_each.
  destruct (compute_score_raises dbg r w) as [e He]. exists e.
  apply bind_raise. rewrite (bind_ok _ _ _ _ _ Ha).
  unfold subscript. simpl. rewrite Z.eqb_refl. exact He.
Qed.

(** C1. The price ceiling is never applied.  For a game of the graph whose
    price exceeds the user's ceiling, [compute_score] raises before it
    reaches the comparison with [user_max_price], and so does the whole
    pass [assign_all_scores]; the store is left as it was, so the game's
    rating is not set to 0.0. *)
Theorem price_ceiling_never_applied (dbg : bool) (w : world) (d : dict) (k : Z) (r : nat) :
  _nodes (self w) = Some d ->
  dict_get k d = Some r ->
  PrimFloat.ltb (user_max_price (self w)) (price (game_at w (game (node_at w r)))) = true ->
  (exists e, compute_score dbg r w = Raise e w) /\
  (exists e, assign_all_scores dbg w = Raise e w) /\
  rating (game_at (state_of (assign_all_scores dbg w)) (game (node_at w r)))
  = rating (game_at w (game (node_at w r))).
Proof.
  intros Hd Hk _. split; [apply compute_score_raises|].
  destruct d as [|[k0 r0] d]; [discriminate|].
  destruct (assign_all_scores_raises dbg w k0 r0 d Hd) as [e He].
  rewrite He. split; [eauto | reflexivity].
Qed.

Lemma price_ceiling_never_applied_witness :
  (_nodes (self scenario) = Some [(1, 0%nat); (2, 1%nat)] /\
   dict_get 2 [(1, 0%nat); (2, 1%nat)] = Some 1%nat /\
   PrimFloat.ltb (user_max_price (self scenario))
     (price (game_at scenario (game (node_at scenario 1)))) = true) /\
  ((exists e, compute_score true 1 scenario = Raise e scenario) /\
   (exists e, assign_all_scores true scenario = Raise e scenario) /\
   rating (game_at (state_of (assign_all_scores true scenario))
             (game (node_at scenario 1)))
   = rating (game_at scenario (game (node_at scenario 1)))).
Proof.
  split.
  - repeat split; reflexivity.
  - apply (price_ceiling_never_applied true scenario [(1, 0%nat); (2, 1%nat)] 2 1);
      reflexivity.
Defined.

(** No score is ever assigned.  Whatever the store, the node and the
    interpreter mode, [compute_score] raises and leaves the store as it
    was: with assertions on, at the assertion on the weights; with
    assertions off, in one of the divisions or in [genre_count]. *)
Lemma compute_score_never_assigns (dbg : bool) (n : nat) (w : world) :
  (exists e, compute_score dbg n w = Raise e w) /\
  compute_score true n w = Raise AssertionError w.
Proof. split; [apply compute_score_raises | apply compute_score_debug]. Qed.




(** C6. Zero anchors make the scoring of every node raise.  With
    assertions on the pass stops at the assertion on the weights; with
    assertions off it divides by [len(self._user_nodes)] (or, before
    that, by a maximum that is zero) and raises [ZeroDivisionError].  No
    signal is replaced by 0.0. *)
Theorem zero_anchors_scoring_raises (w : world) (d : dict) (n : nat) :
  _nodes (self w) = Some d ->
  _user_nodes (self w) = Some [] ->
  compute_score true n w = Raise AssertionError w /\
  compute_score false n w = Raise ZeroDivisionError w.
Proof.
  intros Hd Hu. split; [apply compute_score_debug|].
  unfold compute_score.
  rewrite (bind_ok _ _ tt w w) by reflexivity.
  destruct (user_genres_no_anchor w Hu) as [ug Hug].
  rewrite (bind_ok _ _ _ _ _ Hug).
  rewrite (bind_ok _ _ (node_at w n) w w) by reflexivity.
  destruct (max_price_ok w d Hd) as [mp Hmp]. rewrite (bind_ok _ _ _ _ _ Hmp).
  destruct (max_positive_ratio_ok w d Hd) as [mr Hmr]. rewrite (bind_ok _ _ _ _ _ Hmr).
  rewrite (bind_ok _ _ (game_at w (game (node_at w n))) w w) by reflexivity.
  unfold int_truediv at 1. destruct (mr =? 0); [reflexivity|].
  rewrite (bind_ok _ _ _ w w) by reflexivity.
  unfold float_truediv. destruct (PrimFloat.eqb mp 0); [reflexivity|].
  repeat (rewrite (bind_ok _ _ _ w w) by reflexivity).
  assert (Ha : attr_user_nodes w = Ok [] w) by (unfold attr_user_nodes; now rewrite Hu).
  rewrite (bind_ok _ _ _ _ _ Ha). reflexivity.
Qed.

Lemma zero_anchors_scoring_raises_witness :
  (_nodes (self no_anchor_catalog) = Some [(1, 0%nat)] /\
   _user_nodes (self no_anchor_catalog) = Some []) /\
  (compute_score true 0 no_anchor_catalog = Raise AssertionError no_anchor_catalog /\
   compute_score false 0 no_anchor_catalog = Raise ZeroDivisionError no_anchor_catalog).
Proof.
  split.
  - split; reflexivity.
  - apply (zero_anchors_scoring_raises no_anchor_catalog [(1, 0%nat)] 0); reflexivity.
Defined.

(** ** Construction and insertion *)

Lemma dict_get_set_same k v d : dict_get k (dict_set k v d) = Some v.
Proof.
  induction d as [|[k' v'] d IH]; simpl.
  - now rewrite Z.eqb_refl.
  - destruct (Z.eqb_spec k' k) as [->|Hne]; simpl.
    + now rewrite Z.eqb_refl.
    + destruct (Z.eqb_spec k' k); [contradiction | exact IH].
Qed.

Lemma dict_keys_set_present k v d old :
  dict_get k d = Some old -> dict_keys (dict_set k v d) = dict_keys d.
Proof.
  induction d as [|[k' v'] d IH]; simpl; [discriminate|].
  destruct (Z.eqb_spec k' k) as [->|Hne]; simpl; intros H.
  - reflexivity.
  - f_equal. apply IH, H.
Qed.

Lemma py_in_str_ints s l : forallb is_int l = true -> py_in (PStr s) l = false.
Proof.
  induction l as [|v l IH]; simpl; [reflexivity|].
  intros H. apply andb_prop in H as [Hv Hl].
  destruct v; [simpl; auto | discriminate].
Qed.

Lemma add_game_no_mapping game w :
  _nodes (self w) = None ->
  raised (add_game game w) = Some AttributeError /\
  self (state_of (add_game game w)) = self w.
Proof.
  intros H. unfold add_game, bind, read_game, new_GameNode, nodes_setitem. simpl.
  rewrite H. split; reflexivity.
Qed.

Lemma insert_all_no_mapping l : forall w,
  _nodes (self w) = None -> _nodes (self (insert_all l w)) = None.
Proof.
  induction l as [|g l IH]; intros w H; simpl; [exact H|].
  apply IH. destruct (add_game_no_mapping g w H) as [_ ->]. exact H.
Qed.

(** C10. A freshly constructed graph has neither [_nodes] nor
    [_user_nodes]: [add_game], [add_all_edges], [assign_all_scores] and
    [top_games] all raise [AttributeError] on it, [add_game] leaves the
    graph as constructed, and no sequence of insertions creates the node
    mapping. *)
Theorem fresh_graph_has_no_mappings
    (ids : list pyval) (user_genres : list string) (max_price : float)
    (gs : list Game) (ns : list GameNode) (game : nat) (total : Z) (dbg : bool)
    (set_iter : list obj -> list obj) (l : list nat) :
  let w := mkWorld gs ns (new_GameGraph ids user_genres max_price) in
  raised (add_game game w) = Some AttributeError /\
  self (state_of (add_game game w)) = self w /\
  add_all_edges w = Raise AttributeError w /\
  assign_all_scores dbg w = Raise AttributeError w /\
  top_games set_iter total w = Raise AttributeError w /\
  _nodes (self (insert_all l w)) = None.
Proof.
  intros w.
  destruct (add_game_no_mapping game w eq_refl) as [H1 H2].
  repeat split; try reflexivity; try assumption.
  now apply insert_all_no_mapping.
Qed.

(** C9. Anchors are registered by name, not by id.  When the owned ids
    are integers, as declared, [add_game] never touches [_user_nodes],
    also for a record whose id is one of the owned ids. *)
Theorem owned_id_not_registered (w : world) (game : nat) (d : dict) :
  _nodes (self w) = Some d ->
  forallb is_int (user_game_ids (self w)) = true ->
  py_in (PInt (game_id (game_at w game))) (user_game_ids (self w)) = true ->
  raised (add_game game w) = None /\
  _user_nodes (self (state_of (add_game game w))) = _user_nodes (self w).
Proof.
  intros Hd Hint _.
  unfold add_game, bind, read_game, new_GameNode, nodes_setitem, read_self. simpl.
  rewrite Hd. simpl. rewrite (py_in_str_ints _ _ Hint). split; reflexivity.
Qed.

Lemma owned_id_not_registered_witness :
  (_nodes (self owner_of_1) = Some [] /\
   forallb is_int (user_game_ids (self owner_of_1)) = true /\
   py_in (PInt (game_id (game_at owner_of_1 0))) (user_game_ids (self owner_of_1)) = true) /\
  (raised (add_game 0 owner_of_1) = None /\
   _user_nodes (self (state_of (add_game 0 owner_of_1))) = Some []).
Proof.
  split.
  - repeat split; reflexivity.
  - apply (owned_id_not_registered owner_of_1 0 []); reflexivity.
Defined.

(** C8, as the code has it.  There is no duplicate-id check: inserting a
    record whose id is already a key returns normally and rebinds the id
    to a fresh node without neighbours that wraps the new record; the
    keys of the node mapping and their order stay as they were. *)
Theorem add_game_overwrites_duplicate (w : world) (game : nat) (d ud : dict) (old : nat) :
  _nodes (self w) = Some d ->
  _user_nodes (self w) = Some ud ->
  dict_get (game_id (game_at w game)) d = Some old ->
  let id := game_id (game_at w game) in
  let fresh := length (nodes w) in
  exists w',
    add_game game w = Ok tt w' /\
    _nodes (self w') = Some (dict_set id fresh d) /\
    dict_get id (dict_set id fresh d) = Some fresh /\
    dict_keys (dict_set id fresh d) = dict_keys d /\
    node_at w' fresh = mkGameNode game [].
Proof.
  intros Hd Hu Hold id fresh.
  assert (Hnew : forall g, node_at (mkWorld (games w) (nodes w ++ [mkGameNode game []]) g)
                             fresh = mkGameNode game []).
  { intros g. unfold node_at, fresh. simpl.
    rewrite lookup_app_r by lia. now rewrite Nat.sub_diag. }
  unfold add_game, bind, read_game, new_GameNode, nodes_setitem, read_self. simpl.
  rewrite Hd. simpl.
  destruct (py_in _ _).
  - unfold user_nodes_setitem. simpl. rewrite Hu.
    eexists. split; [reflexivity|]. simpl.
    repeat split;
      [apply dict_get_set_same | eapply dict_keys_set_present, Hold | apply Hnew].
  - eexists. split; [reflexivity|]. simpl.
    repeat split;
      [apply dict_get_set_same | eapply dict_keys_set_present, Hold | apply Hnew].
Qed.

Lemma add_game_overwrites_duplicate_witness :
  (_nodes (self catalog_with_1) = Some [(1, 0%nat)] /\
   _user_nodes (self catalog_with_1) = Some [] /\
   dict_get (game_id (game_at catalog_with_1 0)) [(1, 0%nat)] = Some 0%nat) /\
  exists w',
    add_game 0 catalog_with_1 = Ok tt w' /\
    _nodes (self w') = Some (dict_set 1 1%nat [(1, 0%nat)]) /\
    dict_get 1 (dict_set 1 1%nat [(1, 0%nat)]) = Some 1%nat /\
    dict_keys (dict_set 1 1%nat [(1, 0%nat)]) = dict_keys [(1, 0%nat)] /\
    node_at w' 1 = mkGameNode 0 [].
Proof.
  split.
  - repeat split; reflexivity.
  - apply (add_game_overwrites_duplicate catalog_with_1 0 [(1, 0%nat)] [] 0);
      reflexivity.
Defined.

(** C8 as stated fails: the second insertion of id 1 raises nothing and
    changes the node mapping. *)
Lemma duplicate_id_not_rejected :
  raised (add_game 0 catalog_with_1) = None /\
  _nodes (self (state_of (add_game 0 catalog_with_1))) = Some [(1, 1%nat)] /\
  _nodes (self (state_of (add_game 0 catalog_with_1))) <> _nodes (self catalog_with_1).
Proof. repeat split; try reflexivity; discriminate. Qed.

(** ** Edges *)

Lemma world_eta w : mkWorld (games w) (nodes w) (self w) = w.
Proof. now destruct w. Qed.

Lemma apply_edits_app ops1 ops2 h :
  apply_edits (ops1 ++ ops2) h = apply_edits ops2 (apply_edits ops1 h).
Proof. unfold apply_edits. apply fold_left_app. Qed.

Lemma finish_nil w : finish ([], true) w = Ok tt w.
Proof. unfold finish, set_nodes_heap. simpl. now rewrite world_eta. Qed.

Lemma add_edge_edits a b w :
  add_edge a b w = Ok tt (set_nodes_heap (apply_edits [(a, b); (b, a)] (nodes w)) w).
Proof. reflexivity. Qed.

Lemma inner_loop_plan users user_id ks : forall w,
  _user_nodes (self w) = Some users ->
  for_each ks (edge_body user_id) w = finish (inner_plan users user_id ks) w.
Proof.
  induction ks as [|k ks IH]; intros w Hu; simpl.
  - now rewrite finish_nil.
  - assert (Ha : attr_user_nodes w = Ok users w)
      by (unfold attr_user_nodes; now rewrite Hu).
    unfold edge_body at 1.
    destruct (dict_get user_id users) as [un|] eqn:Eu.
    2:{ apply bind_raise. rewrite (bind_ok _ _ _ _ _ Ha).
        unfold subscript. rewrite Eu. unfold finish, set_nodes_heap. simpl.
        now rewrite world_eta. }
    destruct (dict_get k users) as [on|] eqn:Ek.
    2:{ apply bind_raise. rewrite (bind_ok _ _ _ _ _ Ha).
        unfold subscript at 1. rewrite Eu.
        rewrite (bind_ok _ _ un w w) by reflexivity.
        rewrite (bind_ok _ _ _ _ _ Ha).
        unfold subscript. rewrite Ek. unfold finish, set_nodes_heap. simpl.
        now rewrite world_eta. }
    assert (Hb : exists w',
      edge_body user_id k w = Ok tt w' /\ self w' = self w /\ games w' = games w /\
      nodes w' = apply_edits (if negb (un =? on)%nat then [(on, un); (un, on)] else [])
                   (nodes w)).
    { unfold edge_body. rewrite (bind_ok _ _ _ _ _ Ha).
      unfold subscript at 1. rewrite Eu.
      rewrite (bind_ok _ _ un w w) by reflexivity.
      rewrite (bind_ok _ _ _ _ _ Ha).
      unfold subscript. rewrite Ek.
      rewrite (bind_ok _ _ on w w) by reflexivity.
      destruct (negb (un =? on)%nat).
      - rewrite add_edge_edits. eexists. split; [reflexivity|]. now simpl.
      - exists w. now simpl. }
    destruct Hb as (w' & Hw' & Hs & Hg & Hn).
    fold (edge_body user_id k).
    rewrite (bind_ok _ _ _ _ _ Hw'). rewrite IH by (now rewrite Hs).
    unfold finish. simpl. rewrite apply_edits_app, <- Hn.
    unfold set_nodes_heap. rewrite Hs, Hg. reflexivity.
Qed.

Lemma finish_self plan w : self (state_of (finish plan w)) = self w.
Proof. unfold finish. now destruct (snd plan). Qed.

Lemma outer_loop_plan users all uks : forall w,
  _user_nodes (self w) = Some users ->
  _nodes (self w) = Some all ->
  for_each uks (fun user_id =>
      ids <- attr_nodes ;; for_each (dict_keys ids) (edge_body user_id)) w
  = finish (outer_plan users (dict_keys all) uks) w.
Proof.
  induction uks as [|u uks IH]; intros w Hu Hn; simpl.
  - now rewrite finish_nil.
  - assert (Ha : attr_nodes w = Ok all w) by (unfold attr_nodes; now rewrite Hn).
    unfold bind at 1. rewrite (bind_ok _ _ _ _ _ Ha).
    rewrite (inner_loop_plan users u _ w Hu).
    unfold finish at 1.
    destruct (snd (inner_plan users u (dict_keys all))) eqn:Eok.
    + rewrite IH by assumption.
      unfold finish. simpl. rewrite apply_edits_app. reflexivity.
    + unfold finish. simpl. reflexivity.
Qed.

Lemma add_all_edges_plan w users all :
  _user_nodes (self w) = Some users ->
  _nodes (self w) = Some all ->
  add_all_edges w = finish (outer_plan users (dict_keys all) (dict_keys users)) w.
Proof.
  intros Hu Hn. unfold add_all_edges.
  assert (Ha : attr_user_nodes w = Ok users w)
    by (unfold attr_user_nodes; now rewrite Hu).
  rewrite (bind_ok _ _ _ _ _ Ha).
  apply (outer_loop_plan users all (dict_keys users) w Hu Hn).
Qed.

Lemma inner_plan_missing users user_id ks k :
  k ∈ ks -> dict_get k users = None -> snd (inner_plan users user_id ks) = false.
Proof.
  induction ks as [|k' ks IH]; intros Hin Hk; [inversion Hin|].
  simpl. destruct (dict_get user_id users) as [un|]; [|reflexivity].
  destruct (dict_get k' users) as [on|] eqn:Ek'; [|reflexivity].
  simpl. apply IH; [|exact Hk].
  apply elem_of_cons in Hin as [->|Hin]; [congruence | exact Hin].
Qed.

(** C4. [add_all_edges] looks every id of [_nodes] up in [_user_nodes]:
    as soon as the graph has an anchor and a node that is not one, the
    call raises [KeyError] instead of linking the two. *)
Theorem add_all_edges_key_error (w : world) (users all : dict) (k : Z) :
  _user_nodes (self w) = Some users ->
  _nodes (self w) = Some all ->
  users <> [] ->
  k ∈ dict_keys all ->
  dict_get k users = None ->
  raised (add_all_edges w) = Some KeyError.
Proof.
  intros Hu Hn Hne Hk Hmiss.
  rewrite (add_all_edges_plan w users all Hu Hn).
  destruct users as [|[u r] users']; [contradiction|].
  unfold finish. simpl outer_plan.
  rewrite (inner_plan_missing _ u _ k Hk Hmiss). reflexivity.
Qed.

Lemma add_all_edges_key_error_witness :
  (_user_nodes (self one_anchor) = Some [(1, 0%nat)] /\
   _nodes (self one_anchor) = Some [(1, 0%nat); (2, 1%nat)] /\
   [(1, 0%nat)] <> ([] : dict) /\
   2 ∈ dict_keys [(1, 0%nat); (2, 1%nat)] /\
   dict_get 2 [(1, 0%nat)] = None) /\
  raised (add_all_edges one_anchor) = Some KeyError.
Proof.
  assert (H2 : 2 ∈ dict_keys [(1, 0%nat); (2, 1%nat)]) by (right; left).
  split.
  - repeat split; try reflexivity; [discriminate | exact H2].
  - apply (add_all_edges_key_error one_anchor [(1, 0%nat)] [(1, 0%nat); (2, 1%nat)] 2);
      try reflexivity; [discriminate | exact H2].
Defined.

Lemma inner_plan_no_loops users user_id ks :
  Forall (fun op => fst op <> snd op) (fst (inner_plan users user_id ks)).
Proof.
  induction ks as [|k ks IH]; simpl; [constructor|].
  destruct (dict_get user_id users) as [un|]; [|constructor].
  destruct (dict_get k users) as [on|]; [|constructor].
  simpl. apply Forall_app. split; [|exact IH].
  destruct (Nat.eqb_spec un on); simpl; [constructor|].
  repeat constructor; simpl; congruence.
Qed.

Lemma outer_plan_no_loops users all_ids uks :
  Forall (fun op => fst op <> snd op) (fst (outer_plan users all_ids uks)).
Proof.
  induction uks as [|u uks IH]; simpl; [constructor|].
  destruct (snd (inner_plan users u all_ids)); simpl.
  - apply Forall_app. split; [apply inner_plan_no_loops | exact IH].
  - apply inner_plan_no_loops.
Qed.

Lemma appended_no_loops ops r :
  Forall (fun op => fst op <> snd op) ops -> r ∉ appended ops r.
Proof.
  intros Hops Hin. unfold appended in Hin.
  apply list_elem_of_In, in_map_iff in Hin as ([t v] & Hv & Hin). simpl in Hv. subst v.
  apply list_elem_of_In, list_elem_of_filter in Hin as [Ht Hin]. simpl in Ht. subst t.
  rewrite Forall_forall in Hops. apply (Hops _ Hin). reflexivity.
Qed.

Lemma apply_edits_length ops : forall h, length (apply_edits ops h) = length h.
Proof.
  induction ops as [|op ops IH]; intros h; simpl; [reflexivity|].
  unfold apply_edits in IH. rewrite IH. apply length_alter.
Qed.

Lemma neighbours_apply_edits ops r : forall h,
  (r < length h)%nat ->
  neighbours (default no_node (apply_edits ops h !! r))
  = neighbours (default no_node (h !! r)) ++ appended ops r.
Proof.
  induction ops as [|[t v] ops IH]; intros h Hr.
  - simpl. unfold appended. simpl. now rewrite app_nil_r.
  - change (apply_edits ((t, v) :: ops) h)
      with (apply_edits ops (alter (push_neighbour v) t h)).
    rewrite IH by (now rewrite length_alter).
    unfold appended. rewrite filter_cons. simpl.
    destruct (lookup_lt_is_Some_2 h r Hr) as [n Hn].
    destruct (decide (t = r)) as [->|Hne].
    + rewrite list_lookup_alter_eq, Hn. simpl. now rewrite <- app_assoc.
    + rewrite list_lookup_alter_ne by exact Hne. reflexivity.
Qed.

(** Whether and what [add_all_edges] appends depends on the two mappings
    alone, not on the neighbour lists. *)
Lemma add_all_edges_effect w w1 :
  add_all_edges w = Ok tt w1 ->
  exists ops,
    Forall (fun op => fst op <> snd op) ops /\
    forall v, self v = self w ->
      add_all_edges v = Ok tt (set_nodes_heap (apply_edits ops (nodes v)) v).
Proof.
  intros H.
  destruct (_user_nodes (self w)) as [users|] eqn:Hu.
  2:{ unfold add_all_edges, bind, attr_user_nodes in H. rewrite Hu in H. discriminate. }
  destruct users as [|[u r] users'].
  { exists []. split; [constructor|]. intros v Hv.
    unfold add_all_edges, bind, attr_user_nodes. rewrite Hv, Hu. simpl.
    unfold ret, set_nodes_heap. simpl. now rewrite world_eta. }
  destruct (_nodes (self w)) as [all|] eqn:Hn.
  2:{ unfold add_all_edges, bind, attr_user_nodes in H. rewrite Hu in H. simpl in H.
      unfold bind, attr_nodes in H. rewrite Hn in H. discriminate. }
  set (plan := outer_plan ((u, r) :: users') (dict_keys all) (dict_keys ((u, r) :: users'))).
  rewrite (add_all_edges_plan w _ all Hu Hn) in H. fold plan in H.
  exists (fst plan). split; [apply outer_plan_no_loops|].
  intros v Hv.
  rewrite (add_all_edges_plan v ((u, r) :: users') all) by (now rewrite Hv).
  fold plan. unfold finish in *. destruct (snd plan); [reflexivity | discriminate].
Qed.

(** X21. On any store, however it was made: when [add_all_edges]
    completes, a second call completes too and appends to the neighbour
    list of every live node exactly what the first call appended, so
    that every edge of the first call is there once more.  What is
    appended to a node's list never holds the node itself, and a list
    has the same members after two calls as after one. *)
Theorem add_all_edges_twice (w w1 : world) :
  add_all_edges w = Ok tt w1 ->
  exists (w2 : world) (added : nat -> list nat),
    add_all_edges w1 = Ok tt w2 /\
    forall r, (r < length (nodes w))%nat ->
      neighbours (node_at w1 r) = neighbours (node_at w r) ++ added r /\
      neighbours (node_at w2 r) = neighbours (node_at w1 r) ++ added r /\
      (r ∉ added r) /\
      (forall x, x ∈ neighbours (node_at w2 r) <-> x ∈ neighbours (node_at w1 r)).
Proof.
  intros H. destruct (add_all_edges_effect w w1 H) as (ops & Hloops & Hops).
  pose proof (Hops w eq_refl) as H1. rewrite H in H1. injection H1 as ->.
  eexists. exists (appended ops). split.
  - apply Hops. reflexivity.
  - intros r Hr. unfold node_at. simpl.
    assert (Hr' : (r < length (apply_edits ops (nodes w)))%nat)
      by (now rewrite apply_edits_length).
    rewrite (neighbours_apply_edits ops r _ Hr').
    rewrite (neighbours_apply_edits ops r _ Hr).
    repeat split; [now apply appended_no_loops| |];
      rewrite !elem_of_app; tauto.
Qed.

Lemma add_all_edges_twice_witness :
  add_all_edges two_anchors
  = Ok tt (set_nodes_heap [mkGameNode 0 [1; 1]%nat; mkGameNode 1 [0; 0]%nat] two_anchors) /\
  exists (w2 : world) (added : nat -> list nat),
    add_all_edges
      (set_nodes_heap [mkGameNode 0 [1; 1]%nat; mkGameNode 1 [0; 0]%nat] two_anchors)
    = Ok tt w2 /\
    forall r, (r < length (nodes two_anchors))%nat ->
      neighbours (node_at (set_nodes_heap [mkGameNode 0 [1; 1]%nat; mkGameNode 1 [0; 0]%nat]
                             two_anchors) r)
      = neighbours (node_at two_anchors r) ++ added r /\
      neighbours (node_at w2 r)
      = neighbours (node_at (set_nodes_heap [mkGameNode 0 [1; 1]%nat; mkGameNode 1 [0; 0]%nat]
                               two_anchors) r) ++ added r /\
      (r ∉ added r) /\
      (forall x, x ∈ neighbours (node_at w2 r) <->
                 x ∈ neighbours (node_at (set_nodes_heap
                        [mkGameNode 0 [1; 1]%nat; mkGameNode 1 [0; 0]%nat] two_anchors) r)).
Proof.
  split.
  - reflexivity.
  - apply (add_all_edges_twice two_anchors). reflexivity.
Defined.

(** When the owned list holds the names of A and B, both become anchors:
    one call of [add_all_edges] then links them twice, and a second call
    leaves four copies of each edge. *)
Lemma add_all_edges_not_idempotent :
  raised (add_all_edges two_anchors) = None /\
  raised ((add_all_edges ;;; add_all_edges) two_anchors) = None /\
  map neighbours (nodes (state_of (add_all_edges two_anchors)))
  = [[1; 1]; [0; 0]]%nat /\
  map neighbours (nodes (state_of ((add_all_edges ;;; add_all_edges) two_anchors)))
  = [[1; 1; 1; 1]; [0; 0; 0; 0]]%nat /\
  map neighbours (nodes (state_of ((add_all_edges ;;; add_all_edges) two_anchors)))
  <> map neighbours (nodes (state_of (add_all_edges two_anchors))).
Proof. repeat split; try reflexivity; discriminate. Qed.

(** ** The order of ratings *)

Lemma SFleb_key a b :
  is_nan a = false -> is_nan b = false ->
  (SFleb a b = true <-> key_le (fkey a) (fkey b)).
Proof.
  unfold SFleb.
  destruct a as [sa|sa| |sa ma ea], b as [sb|sb| |sb mb eb]; try discriminate;
    intros _ _; try destruct sa; try destruct sb; simpl;
    try (split; [intros _; lia | reflexivity]);
    try (split; [discriminate | intros; exfalso; lia]).
  all: rewrite ?Pos.compare_cont_spec; simpl.
  all: try destruct (Z.compare_spec ea eb); try destruct (Pos.compare_spec ma mb); simpl.
  all: split; intros; try reflexivity; try discriminate; try lia.
Qed.

Lemma SFltb_key a b :
  is_nan a = false -> is_nan b = false ->
  (SFltb a b = true <-> ~ key_le (fkey b) (fkey a)).
Proof.
  unfold SFltb.
  destruct a as [sa|sa| |sa ma ea], b as [sb|sb| |sb mb eb]; try discriminate;
    intros _ _; try destruct sa; try destruct sb; simpl;
    try (split; [intros _; lia | reflexivity]);
    try (split; [discriminate | intros; exfalso; lia]).
  all: rewrite ?Pos.compare_cont_spec; simpl.
  all: try destruct (Z.compare_spec ea eb); try destruct (Pos.compare_spec ma mb); simpl.
  all: split; intros; try reflexivity; try discriminate; try lia.
Qed.

Lemma SFeqb_key a b :
  is_nan a = false -> is_nan b = false ->
  SFeqb a b = true -> key_le (fkey a) (fkey b).
Proof.
  unfold SFeqb.
  destruct a as [sa|sa| |sa ma ea], b as [sb|sb| |sb mb eb]; try discriminate;
    intros _ _; try destruct sa; try destruct sb; simpl;
    try (intros _; lia); try discriminate.
  all: rewrite ?Pos.compare_cont_spec; simpl.
  all: try destruct (Z.compare_spec ea eb); try destruct (Pos.compare_spec ma mb); simpl.
  all: intros; try reflexivity; try discriminate; try lia.
Qed.

Lemma key_le_total x y : key_le x y \/ key_le y x.
Proof. destruct x as [[a b] c], y as [[a' b'] c']. simpl. lia. Qed.

Lemma key_le_trans x y z : key_le x y -> key_le y z -> key_le x z.
Proof. destruct x as [[a b] c], y as [[a' b'] c'], z as [[a'' b''] c'']. simpl. lia. Qed.

Lemma leb_number x y : PrimFloat.leb x y = true -> number x /\ number y.
Proof.
  rewrite FloatAxioms.leb_spec. unfold number.
  destruct (Prim2SF x), (Prim2SF y); simpl; try discriminate; auto.
Qed.

Lemma eqb_number x y : PrimFloat.eqb x y = true -> number x /\ number y.
Proof.
  rewrite FloatAxioms.eqb_spec. unfold number.
  destruct (Prim2SF x), (Prim2SF y); simpl; try discriminate; auto.
Qed.

Lemma leb_total x y :
  number x -> number y -> PrimFloat.leb x y = false -> PrimFloat.leb y x = true.
Proof.
  intros Hx Hy H. rewrite FloatAxioms.leb_spec in *.
  apply (SFleb_key _ _ Hy Hx).
  destruct (key_le_total (fkey (Prim2SF x)) (fkey (Prim2SF y))) as [Hle|Hle]; [|exact Hle].
  apply (SFleb_key _ _ Hx Hy) in Hle. congruence.
Qed.

Lemma leb_trans x y z :
  PrimFloat.leb x y = true -> PrimFloat.leb y z = true -> PrimFloat.leb x z = true.
Proof.
  intros Hxy Hyz.
  destruct (leb_number _ _ Hxy) as [Hx Hy]. destruct (leb_number _ _ Hyz) as [_ Hz].
  rewrite FloatAxioms.leb_spec in *.
  apply (SFleb_key _ _ Hx Hz).
  apply (SFleb_key _ _ Hx Hy) in Hxy. apply (SFleb_key _ _ Hy Hz) in Hyz.
  eapply key_le_trans; eassumption.
Qed.

Lemma leb_not_ltb x y : PrimFloat.leb y x = true -> PrimFloat.ltb x y = false.
Proof.
  intros H. destruct (leb_number _ _ H) as [Hy Hx].
  destruct (PrimFloat.ltb x y) eqn:E; [|reflexivity].
  rewrite FloatAxioms.ltb_spec in E. rewrite FloatAxioms.leb_spec in H.
  apply (SFltb_key _ _ Hx Hy) in E. apply (SFleb_key _ _ Hy Hx) in H. contradiction.
Qed.

Lemma eqb_leb x y : PrimFloat.eqb x y = true -> PrimFloat.leb x y = true.
Proof.
  intros H. destruct (eqb_number _ _ H) as [Hx Hy].
  rewrite FloatAxioms.eqb_spec in H. rewrite FloatAxioms.leb_spec.
  apply (SFleb_key _ _ Hx Hy). now apply SFeqb_key.
Qed.

(** ** Ranking *)

Lemma attr_rating_rate o w :
  attr_rating o w
  = match rate w o with Some r => Ok r w | None => Raise AttributeError w end.
Proof.
  destruct o as [i|i]; simpl; [|reflexivity].
  unfold bind, read_game. destruct (rating (game_at w i)); reflexivity.
Qed.

Lemma highest_step_rate w acc g r :
  rate w g = Some r ->
  highest_step acc g w
  = Ok (if PrimFloat.leb (fst acc) r then (r, Some g) else acc) w.
Proof.
  intros Hr. unfold highest_step, bind. rewrite attr_rating_rate, Hr.
  destruct (PrimFloat.leb (fst acc) r); reflexivity.
Qed.

(** The running maximum of [highest_scoring_game]: either no member
    reached the bar [hs], or the result is the last member among those
    with the highest rating. *)
Lemma highest_fold w l : forall hs gs,
  Forall (scored w) l -> number hs ->
  (for_fold l highest_step (hs, gs) w = Ok (hs, gs) w /\
   forall x rx, x ∈ l -> rate w x = Some rx -> PrimFloat.leb hs rx = false)
  \/
  (exists l1 g l2 rg,
     l = l1 ++ g :: l2 /\
     for_fold l highest_step (hs, gs) w = Ok (rg, Some g) w /\
     rate w g = Some rg /\ PrimFloat.leb hs rg = true /\
     (forall x rx, x ∈ l1 -> rate w x = Some rx -> PrimFloat.leb rx rg = true) /\
     (forall x rx, x ∈ l2 -> rate w x = Some rx -> PrimFloat.leb rg rx = false)).
Proof.
  induction l as [|x l IH]; intros hs gs Hall Hhs.
  - left. split; [reflexivity|]. intros y ry Hy. inversion Hy.
  - apply Forall_cons in Hall as [[r [Hr Hpos]] Hall].
    destruct (leb_number _ _ Hpos) as [_ Hnr].
    simpl for_fold. rewrite (bind_ok _ _ _ _ _ (highest_step_rate w (hs, gs) x r Hr)).
    simpl fst. destruct (PrimFloat.leb hs r) eqn:Ehs.
    + destruct (IH r (Some x) Hall Hnr) as [[Hf Hlow]|(l1 & g & l2 & rg & -> & Hf & Hg & Hle & H1 & H2)].
      * right. exists [], x, l, r. repeat split; auto.
        intros y ry Hy. inversion Hy.
      * right. exists (x :: l1), g, l2, rg. repeat split; auto.
        -- eapply leb_trans; eassumption.
        -- intros y ry Hy Hry. apply elem_of_cons in Hy as [->|Hy]; [|eauto].
           rewrite Hr in Hry. injection Hry as <-. exact Hle.
    + destruct (IH hs gs Hall Hhs) as [[Hf Hlow]|(l1 & g & l2 & rg & -> & Hf & Hg & Hle & H1 & H2)].
      * left. split; [exact Hf|].
        intros y ry Hy Hry. apply elem_of_cons in Hy as [->|Hy]; [|eauto].
        rewrite Hr in Hry. injection Hry as <-. exact Ehs.
      * right. exists (x :: l1), g, l2, rg. repeat split; auto.
        intros y ry Hy Hry. apply elem_of_cons in Hy as [->|Hy]; [|eauto].
        rewrite Hr in Hry. injection Hry as <-.
        eapply leb_trans; [|exact Hle]. now apply leb_total.
Qed.

Lemma number_zero : number 0%float.
Proof. reflexivity. Qed.

Lemma highest_scoring_game_last_max w l :
  l <> [] -> Forall (scored w) l ->
  exists l1 g l2,
    l = l1 ++ g :: l2 /\
    highest_scoring_game l w = Ok (Some g) w /\
    (forall x, x ∈ l1 ++ l2 -> at_least w g x) /\
    (forall x, x ∈ l2 -> ~ at_least w x g).
Proof.
  intros Hne Hall.
  destruct (highest_fold w l 0%float None Hall number_zero)
    as [[_ Hlow]|(l1 & g & l2 & rg & -> & Hf & Hg & Hle & H1 & H2)].
  - destruct l as [|x l]; [contradiction|].
    apply Forall_cons in Hall as [[r [Hr Hpos]] _].
    rewrite (Hlow x r) in Hpos by (auto; left). discriminate.
  - exists l1, g, l2. split; [reflexivity|]. split.
    { unfold highest_scoring_game. rewrite (bind_ok _ _ _ _ _ Hf). reflexivity. }
    assert (Hsc : forall x, x ∈ l1 ++ l2 -> exists rx, rate w x = Some rx /\ number rx).
    { intros x Hx. rewrite Forall_forall in Hall.
      destruct (Hall x) as [rx [Hrx Hp]].
      - apply elem_of_app in Hx as [Hx|Hx]; apply elem_of_app; [left|right; right]; exact Hx.
      - exists rx. split; [exact Hrx|]. apply (leb_number _ _ Hp). }
    destruct (leb_number _ _ Hle) as [_ Hng].
    split.
    + intros x Hx. destruct (Hsc x Hx) as [rx [Hrx Hnx]].
      exists rg, rx. repeat split; auto.
      apply elem_of_app in Hx as [Hx|Hx]; [eauto|].
      apply leb_total; eauto.
    + intros x Hx (rx & rg' & Hrx & Hg' & Hle').
      rewrite Hg in Hg'. injection Hg' as <-.
      rewrite (H2 x rx Hx Hrx) in Hle'. discriminate.
Qed.

Lemma discard_middle g l1 l2 : g ∉ l1 -> discard g (l1 ++ g :: l2) = l1 ++ l2.
Proof.
  induction l1 as [|x l1 IH]; intros Hg; simpl.
  - now rewrite bool_decide_eq_true_2.
  - rewrite bool_decide_eq_false_2.
    + f_equal. apply IH. intros H. apply Hg. now right.
    + intros ->. apply Hg. left.
Qed.

Lemma discard_length o s : o ∈ s -> S (length (discard o s)) = length s.
Proof.
  induction s as [|x s IH]; intros Hin; [inversion Hin|]. simpl.
  destruct (bool_decide (x = o)) eqn:E; [reflexivity|].
  apply bool_decide_eq_false in E. simpl. f_equal. apply IH.
  apply elem_of_cons in Hin as [->|Hin]; [contradiction | exact Hin].
Qed.

Lemma selected_subset w p picks : selected w p picks -> forall x, x ∈ picks -> x ∈ p.
Proof.
  induction 1 as [|l1 g l2 rest _ _ _ IH]; intros x Hx; [inversion Hx|].
  apply elem_of_cons in Hx as [->|Hx].
  - apply elem_of_app. right. left.
  - apply IH, elem_of_app in Hx as [Hx|Hx]; apply elem_of_app; [left|right; right]; exact Hx.
Qed.

Lemma selected_NoDup w p picks : selected w p picks -> NoDup p -> NoDup picks.
Proof.
  induction 1 as [|l1 g l2 rest _ _ Hsel IH]; intros Hnd; [constructor|].
  apply NoDup_app in Hnd as (H1 & H12 & H2). apply NoDup_cons in H2 as [Hg2 H2].
  constructor.
  - intros Hin. apply (selected_subset _ _ _ Hsel), elem_of_app in Hin as [Hin|Hin].
    + apply (H12 g Hin). left.
    + contradiction.
  - apply IH. apply NoDup_app. repeat split; auto.
    intros x Hx Hx2. apply (H12 x Hx). now right.
Qed.

(** In a run of selections a game ranked before another is rated at
    least as high; when the two are tied, the one ranked first stood
    later among the candidates. *)
Lemma selected_order w p picks :
  selected w p picks ->
  forall a b, [a; b] `sublist_of` picks ->
    at_least w a b /\ (tied w a b -> [b; a] `sublist_of` p).
Proof.
  induction 1 as [|l1 g l2 rest Hmax Hlast Hsel IH]; intros a b Hab.
  - apply sublist_nil_r in Hab. discriminate.
  - assert (Hsub : l1 ++ l2 `sublist_of` l1 ++ g :: l2)
      by (apply sublist_app; [reflexivity | now apply sublist_cons]).
    apply sublist_cons_r in Hab as [Hab|(k & Hk & Hab)].
    + destruct (IH a b Hab) as [Hge Htie]. split; [exact Hge|].
      intros Ht. etransitivity; [apply Htie, Ht | exact Hsub].
    + injection Hk as -> <-.
      assert (Hb : b ∈ l1 ++ l2).
      { apply (selected_subset _ _ _ Hsel). apply singleton_sublist_l, Hab. }
      split; [apply Hmax, Hb|].
      intros (ra & rb & Hra & Hrb & Heq).
      apply elem_of_app in Hb as [Hb|Hb].
      * change [b; g] with ([b] ++ [g]). apply sublist_app.
        -- now apply singleton_sublist_l.
        -- apply sublist_skip, sublist_nil_l.
      * exfalso. apply (Hlast b Hb). exists rb, ra. repeat split; auto.
        now apply eqb_leb.
Qed.

(** In a run of selections a game that was taken is rated at least as
    high as a candidate that was left; when the two are tied, the one
    that was left stood earlier among the candidates. *)
Lemma selected_cut w p picks :
  selected w p picks ->
  forall a c, a ∈ picks -> c ∈ p -> c ∉ picks ->
    at_least w a c /\ (tied w a c -> [c; a] `sublist_of` p).
Proof.
  induction 1 as [|l1 g l2 rest Hmax Hlast Hsel IH]; intros a c Ha Hc Hout.
  - inversion Ha.
  - assert (Hcg : c <> g) by (intros ->; apply Hout; left).
    assert (Hc' : c ∈ l1 ++ l2).
    { apply elem_of_app in Hc as [Hc|Hc]; apply elem_of_app; [now left|right].
      apply elem_of_cons in Hc as [Hc|Hc]; [contradiction | exact Hc]. }
    assert (Hsub : l1 ++ l2 `sublist_of` l1 ++ g :: l2)
      by (apply sublist_app; [reflexivity | now apply sublist_cons]).
    apply elem_of_cons in Ha as [->|Ha].
    + split; [apply Hmax, Hc'|].
      intros (ra & rc & Hra & Hrc & Heq).
      apply elem_of_app in Hc' as [Hc1|Hc2].
      * change [c; g] with ([c] ++ [g]). apply sublist_app.
        -- now apply singleton_sublist_l.
        -- apply sublist_skip, sublist_nil_l.
      * exfalso. apply (Hlast c Hc2). exists rc, ra. repeat split; auto.
        now apply eqb_leb.
    + destruct (IH a c Ha Hc') as [Hge Htie].
      { intros Hin. apply Hout. now right. }
      split; [exact Hge|].
      intros Ht. etransitivity; [apply Htie, Ht | exact Hsub].
Qed.

(** The loop of [top_games] takes [k] more candidates when more than [k]
    are left. *)
Lemma top_games_loop_selects (w : world) (total : Z) : forall k fuel possible actual,
  NoDup possible -> Forall (scored w) possible ->
  (k < length possible)%nat -> (k <= fuel)%nat ->
  Z.of_nat (length actual + k) = total ->
  exists picks,
    top_games_loop fuel total possible actual w = Ok (actual ++ picks) w /\
    length picks = k /\ selected w possible picks.
Proof.
  induction k as [|k IH]; intros fuel possible actual Hnd Hall Hk Hfuel Htot.
  - exists []. rewrite app_nil_r. repeat split; [|constructor].
    destruct fuel; simpl;
      (replace (Z.of_nat (length actual) =? total) with true
         by (symmetry; apply Z.eqb_eq; lia));
      (destruct possible; [simpl in Hk; lia | reflexivity]).
  - destruct fuel as [|fuel]; [lia|]. simpl.
    replace (Z.of_nat (length actual) =? total) with false
      by (symmetry; apply Z.eqb_neq; lia).
    simpl.
    assert (Hne : possible <> []) by (intros ->; simpl in Hk; lia).
    destruct (highest_scoring_game_last_max w possible Hne Hall)
      as (l1 & g & l2 & -> & Hg & Hmax & Hlast).
    rewrite (bind_ok _ _ _ _ _ Hg).
    apply NoDup_app in Hnd as (H1 & H12 & H2). apply NoDup_cons in H2 as [Hg2 H2].
    assert (Hg1 : g ∉ l1) by (intros Hin; apply (H12 g Hin); left).
    assert (Hrm : set_remove (Some g) (l1 ++ g :: l2) w = Ok (g, l1 ++ l2) w).
    { unfold set_remove, obj_in. rewrite bool_decide_eq_true_2.
      - now rewrite discard_middle.
      - apply elem_of_app. right. left. }
    rewrite (bind_ok _ _ _ _ _ Hrm). simpl fst. simpl snd.
    destruct (IH fuel (l1 ++ l2) (actual ++ [g])) as (picks & Hloop & Hlen & Hsel).
    + apply NoDup_app. repeat split; auto.
      intros x Hx Hx2. apply (H12 x Hx). now right.
    + apply Forall_app in Hall as [Ha Hb]. apply Forall_cons in Hb as [_ Hb].
      apply Forall_app. split; assumption.
    + rewrite length_app in *. simpl in Hk. lia.
    + lia.
    + rewrite length_app. simpl. lia.
    + exists (g :: picks). rewrite Hloop, <- app_assoc. simpl.
      repeat split; [lia|]. now constructor.
Qed.

Lemma adjacent_sublist {A} (l : list A) : forall i a b,
  l !! i = Some a -> l !! (i + 1)%nat = Some b -> [a; b] `sublist_of` l.
Proof.
  induction l as [|x l IH]; intros i a b Ha Hb; [discriminate|].
  destruct i as [|i]; simpl in *.
  - injection Ha as ->. destruct l as [|y l]; [discriminate|]. injection Hb as ->.
    apply sublist_skip, sublist_skip, sublist_nil_l.
  - apply sublist_cons. eapply IH; eassumption.
Qed.

Lemma sort_outer_in_order w l i a b :
  l !! i = Some a -> l !! (i + 1)%nat = Some b -> at_least w a b ->
  sort_outer l i w = Ok l w.
Proof.
  intros Ha Hb (ra & rb & Hra & Hrb & Hle).
  unfold sort_outer, bind, item. rewrite Ha, Hb. simpl.
  rewrite attr_rating_rate, Hra. rewrite attr_rating_rate, Hrb.
  now rewrite (leb_not_ltb ra rb Hle).
Qed.

(** [sort_games] leaves a list alone that is already in descending order. *)
Lemma sort_games_in_order w l :
  (forall a b, [a; b] `sublist_of` l -> at_least w a b) ->
  sort_games l w = Ok l w.
Proof.
  intros Hord. unfold sort_games.
  assert (H : forall idxs, (forall i, i ∈ idxs -> (i + 1 < length l)%nat) ->
                           for_fold idxs sort_outer l w = Ok l w).
  { induction idxs as [|i idxs IH]; intros Hidx; [reflexivity|]. simpl.
    specialize (Hidx i (list_elem_of_here _ _)) as Hi.
    destruct (lookup_lt_is_Some_2 l i) as [a Ha]; [lia|].
    destruct (lookup_lt_is_Some_2 l (i + 1)) as [b Hb]; [lia|].
    rewrite (bind_ok _ _ l w w).
    - apply IH. intros j Hj. apply Hidx. now right.
    - eapply sort_outer_in_order; eauto using adjacent_sublist. }
  apply H. intros i Hi. apply elem_of_seq in Hi. lia.
Qed.

Lemma dict_get_member (d : dict) k r :
  NoDup (dict_keys d) -> (k, r) ∈ d -> dict_get k d = Some r.
Proof.
  induction d as [|[k' r'] d IH]; intros Hnd Hin; [inversion Hin|].
  simpl in Hnd. apply NoDup_cons in Hnd as [Hk' Hnd]. simpl.
  apply elem_of_cons in Hin as [Heq|Hin].
  - injection Heq as -> ->. now rewrite Z.eqb_refl.
  - destruct (Z.eqb_spec k' k) as [->|Hne]; [|auto].
    exfalso. apply Hk'. unfold dict_keys.
    apply list_elem_of_In, in_map_iff. exists (k, r). split; [reflexivity|].
    now apply list_elem_of_In.
Qed.

Lemma catalog_adds w all :
  _nodes (self w) = Some all -> NoDup (dict_keys all) ->
  for_fold (dict_keys all)
    (fun adds game_id => node <- node_of_id game_id ;; ret (adds ++ [OGame (game node)]))
    [] w
  = Ok (games_of w all) w.
Proof.
  intros Hn Hnd.
  assert (H : forall d acc, (forall kr, kr ∈ d -> kr ∈ all) ->
    for_fold (dict_keys d)
      (fun adds game_id => node <- node_of_id game_id ;; ret (adds ++ [OGame (game node)]))
      acc w
    = Ok (acc ++ games_of w d) w).
  { induction d as [|[k r] d IH]; intros acc Hsub; simpl.
    - now rewrite app_nil_r.
    - assert (Hk : node_of_id k w = Ok (node_at w r) w).
      { unfold node_of_id, bind, attr_nodes, subscript. rewrite Hn.
        rewrite (dict_get_member all k r Hnd) by (apply Hsub; left). reflexivity. }
      unfold bind at 1. unfold bind at 1. rewrite Hk. unfold ret at 1.
      rewrite IH by (intros kr Hkr; apply Hsub; now right).
      now rewrite <- app_assoc. }
  apply (H all []). auto.
Qed.

Lemma Forall_scoredb w l : forallb (scoredb w) l = true -> Forall (scored w) l.
Proof.
  intros H. apply Forall_forall. intros x Hx.
  rewrite forallb_forall in H. specialize (H x (proj1 (list_elem_of_In _ _) Hx)).
  unfold scoredb in H. unfold scored.
  destruct (rate w x) as [r|]; [eauto | discriminate].
Qed.

(** The catalog-wide ranking, for fewer games than the graph holds, is a
    run of selections from the candidate set. *)
Lemma top_games_selects (set_iter : list obj -> list obj) (w : world)
    (all : dict) (total : Z) :
  (forall l, set_iter l ≡ₚ remove_dups l) ->
  _nodes (self w) = Some all ->
  NoDup (dict_keys all) ->
  forallb (scoredb w) (set_iter (games_of w all)) = true ->
  0 <= total < Z.of_nat (length (set_iter (games_of w all))) ->
  exists ranked,
    top_games set_iter total w = Ok ranked w /\
    Z.of_nat (length ranked) = total /\
    selected w (set_iter (games_of w all)) ranked.
Proof.
  intros Hset Hn Hkeys Hsc Htot.
  set (candidates := set_iter (games_of w all)) in *.
  assert (Hnd : NoDup candidates).
  { unfold candidates. rewrite (Hset _). apply NoDup_remove_dups. }
  apply Forall_scoredb in Hsc.
  destruct (top_games_loop_selects w total (Z.to_nat total) (S (length candidates))
              candidates []) as (picks & Hloop & Hlen & Hsel);
    [assumption | assumption | lia | lia | simpl; lia |].
  change ([] ++ picks) with picks in Hloop.
  exists picks. split; [|split; [lia | exact Hsel]].
  unfold top_games.
  assert (Ha : attr_nodes w = Ok all w) by (unfold attr_nodes; now rewrite Hn).
  rewrite (bind_ok _ _ _ _ _ Ha).
  rewrite (bind_ok _ _ _ _ _ (catalog_adds w all Hn Hkeys)).
  fold candidates. rewrite (bind_ok _ _ _ _ _ Hloop).
  apply sort_games_in_order. intros a b Hab.
  apply (selected_order w candidates picks Hsel a b Hab).
Qed.

(** C3, as the code has it.  When fewer games are asked for than the
    graph holds, and every game has a score that is a number and not
    negative, [top_games] returns that many distinct games of the
    graph, taken one after the other from the candidate set, each the
    last of the highest scored candidates left.  So the games returned
    are in non-increasing order of score, and of two of them with equal
    scores the one met later in the iteration over the candidate set
    comes first; and they are the best: a game returned is scored at
    least as high as a game of the graph that is not returned, and when
    the two are tied the one returned was met later. *)
Theorem top_games_ranking (set_iter : list obj -> list obj) (w : world)
    (all : dict) (total : Z) :
  (forall l, set_iter l ≡ₚ remove_dups l) ->
  _nodes (self w) = Some all ->
  NoDup (dict_keys all) ->
  forallb (scoredb w) (set_iter (games_of w all)) = true ->
  0 <= total < Z.of_nat (length (set_iter (games_of w all))) ->
  exists ranked,
    top_games set_iter total w = Ok ranked w /\
    Z.of_nat (length ranked) = total /\
    NoDup ranked /\
    (forall x, x ∈ ranked -> x ∈ games_of w all) /\
    selected w (set_iter (games_of w all)) ranked /\
    (forall a b, [a; b] `sublist_of` ranked ->
       at_least w a b /\
       (tied w a b -> [b; a] `sublist_of` set_iter (games_of w all))) /\
    (forall a c, a ∈ ranked -> c ∈ games_of w all -> c ∉ ranked ->
       at_least w a c /\
       (tied w a c -> [c; a] `sublist_of` set_iter (games_of w all))).
Proof.
  intros Hset Hn Hkeys Hsc Htot.
  destruct (top_games_selects set_iter w all total Hset Hn Hkeys Hsc Htot)
    as (ranked & Hrun & Hlen & Hsel).
  exists ranked. split; [exact Hrun|]. split; [exact Hlen|].
  split; [|split; [|split; [exact Hsel|split]]].
  - apply (selected_NoDup _ _ _ Hsel). rewrite (Hset _). apply NoDup_remove_dups.
  - intros x Hx. apply (selected_subset _ _ _ Hsel) in Hx.
    rewrite (Hset _) in Hx. exact (proj1 (elem_of_remove_dups _ _) Hx).
  - exact (selected_order _ _ _ Hsel).
  - intros a c Ha Hc Hout. apply (selected_cut _ _ _ Hsel a c Ha); [|exact Hout].
    rewrite (Hset _). now apply elem_of_remove_dups.
Qed.

Lemma top_games_ranking_witness :
  ((forall l : list obj, remove_dups l ≡ₚ remove_dups l) /\
   _nodes (self rated_four) = Some [(1, 0%nat); (2, 1%nat); (3, 2%nat); (4, 3%nat)] /\
   NoDup (dict_keys [(1, 0%nat); (2, 1%nat); (3, 2%nat); (4, 3%nat)]) /\
   forallb (scoredb rated_four)
     (remove_dups (games_of rated_four
                     [(1, 0%nat); (2, 1%nat); (3, 2%nat); (4, 3%nat)])) = true /\
   0 <= 3 < Z.of_nat (length (remove_dups
             (games_of rated_four [(1, 0%nat); (2, 1%nat); (3, 2%nat); (4, 3%nat)])))) /\
  (remove_dups (games_of rated_four [(1, 0%nat); (2, 1%nat); (3, 2%nat); (4, 3%nat)])
   = [OGame 0; OGame 1; OGame 2; OGame 3] /\
   top_games remove_dups 3 rated_four = Ok [OGame 1; OGame 2; OGame 0] rated_four /\
   tied rated_four (OGame 2) (OGame 0) /\
   exists ranked,
     top_games remove_dups 3 rated_four = Ok ranked rated_four /\
     Z.of_nat (length ranked) = 3 /\
     NoDup ranked /\
     (forall x, x ∈ ranked ->
        x ∈ games_of rated_four [(1, 0%nat); (2, 1%nat); (3, 2%nat); (4, 3%nat)]) /\
     selected rated_four
       (remove_dups (games_of rated_four
                       [(1, 0%nat); (2, 1%nat); (3, 2%nat); (4, 3%nat)])) ranked /\
     (forall a b, [a; b] `sublist_of` ranked ->
        at_least rated_four a b /\
        (tied rated_four a b ->
         [b; a] `sublist_of`
           remove_dups (games_of rated_four
                          [(1, 0%nat); (2, 1%nat); (3, 2%nat); (4, 3%nat)]))) /\
     (forall a c, a ∈ ranked ->
        c ∈ games_of rated_four [(1, 0%nat); (2, 1%nat); (3, 2%nat); (4, 3%nat)] ->
        c ∉ ranked ->
        at_least rated_four a c /\
        (tied rated_four a c ->
         [c; a] `sublist_of`
           remove_dups (games_of rated_four
                          [(1, 0%nat); (2, 1%nat); (3, 2%nat); (4, 3%nat)])))).
Proof.
  assert (Hk : NoDup (dict_keys [(1, 0%nat); (2, 1%nat); (3, 2%nat); (4, 3%nat)]))
    by compute_done.
  split.
  - repeat split; try reflexivity; try exact Hk; simpl; lia.
  - split; [reflexivity|]. split; [reflexivity|]. split.
    { exists 0.5%float, 0.5%float. repeat split; reflexivity. }
    apply (top_games_ranking remove_dups rated_four
             [(1, 0%nat); (2, 1%nat); (3, 2%nat); (4, 3%nat)] 3);
      try reflexivity; try exact Hk; simpl; lia.
Defined.

(** C3 as stated fails.  Asked for one game of the three, the code
    returns B; asked for two, it returns B and then C, which was met
    after A and is tied with it; asked for as many games as there are,
    or more, or for none of an empty graph, it raises [KeyError]. *)
Lemma top_games_contract_broken :
  top_games remove_dups 2 rated_catalog = Ok [OGame 1; OGame 2] rated_catalog /\
  remove_dups (games_of rated_catalog [(1, 0%nat); (2, 1%nat); (3, 2%nat)])
  = [OGame 0; OGame 1; OGame 2] /\
  rate rated_catalog (OGame 0) = rate rated_catalog (OGame 2) /\
  raised (top_games remove_dups 3 rated_catalog) = Some KeyError /\
  raised (top_games remove_dups 5 rated_catalog) = Some KeyError /\
  raised (top_games remove_dups 0 empty_catalog) = Some KeyError.
Proof. repeat split; reflexivity. Qed.

Lemma pool_adds_empty w users :
  _user_nodes (self w) = Some users ->
  NoDup (dict_keys users) ->
  pool_empty w users = true ->
  for_fold (dict_keys users)
    (fun adds game_id =>
       node <- user_node_of_id game_id ;; for_fold (neighbours node) pool_step adds)
    [] w
  = Ok [] w.
Proof.
  intros Hu Hnd Hpool.
  assert (H : forall d, (forall kr, kr ∈ d -> kr ∈ users) ->
    for_fold (dict_keys d)
      (fun adds game_id =>
         node <- user_node_of_id game_id ;; for_fold (neighbours node) pool_step adds)
      [] w
    = Ok [] w).
  { induction d as [|[k r] d IH]; intros Hsub; [reflexivity|]. simpl.
    assert (Hk : user_node_of_id k w = Ok (node_at w r) w).
    { unfold user_node_of_id, bind, attr_user_nodes, subscript. rewrite Hu.
      rewrite (dict_get_member users k r Hnd) by (apply Hsub; left). reflexivity. }
    assert (Hnb : neighbours (node_at w r) = []).
    { unfold pool_empty in Hpool. rewrite forallb_forall in Hpool.
      specialize (Hpool (k, r) (proj1 (list_elem_of_In _ _) (Hsub _ (list_elem_of_here _ _)))).
      simpl in Hpool. now destruct (neighbours (node_at w r)). }
    unfold bind at 1. unfold bind at 1. rewrite Hk, Hnb. simpl for_fold. unfold ret at 1.
    apply IH. intros kr Hkr. apply Hsub. now right. }
  apply H. auto.
Qed.

(** The neighbour-based loop of [highest_scoring_games] does not look at
    [total_games] before the pool is empty: it returns the whole pool,
    and raises when the pool has exactly [total_games] members. *)
Lemma neighbour_ranking_ignores_total :
  highest_scoring_games remove_dups 0 rated_linked = Ok [OGame 0; OGame 1] rated_linked /\
  highest_scoring_games remove_dups 1 rated_linked = Ok [OGame 0; OGame 1] rated_linked /\
  raised (highest_scoring_games remove_dups 2 rated_linked) = Some KeyError.
Proof. repeat split; reflexivity. Qed.

(** ** The loop bounds are never reached *)

Lemma wf_ret {A} (a : A) : within_fuel (ret a).
Proof. intros w; discriminate. Qed.

Lemma wf_bind {A B} (c : M A) (k : A -> M B) :
  within_fuel c -> (forall a, within_fuel (k a)) -> within_fuel (bind c k).
Proof.
  intros Hc Hk w. unfold bind. specialize (Hc w).
  destruct (c w) as [a s|e s]; [apply Hk | exact Hc].
Qed.

Lemma wf_for_fold {A B} (xs : list A) (body : B -> A -> M B) :
  (forall b x, within_fuel (body b x)) -> forall b, within_fuel (for_fold xs body b).
Proof.
  intros Hb. induction xs as [|x xs IH]; intros b; simpl.
  - apply wf_ret.
  - apply wf_bind; auto.
Qed.

Lemma wf_attr_nodes : within_fuel attr_nodes.
Proof. intros w. unfold attr_nodes. destruct (_nodes (self w)); discriminate. Qed.

Lemma wf_attr_user_nodes : within_fuel attr_user_nodes.
Proof. intros w. unfold attr_user_nodes. destruct (_user_nodes (self w)); discriminate. Qed.

Lemma wf_subscript d k : within_fuel (subscript d k).
Proof. intros w. unfold subscript. destruct (dict_get k d); discriminate. Qed.

Lemma wf_read_node r : within_fuel (read_node r).
Proof. intros w; discriminate. Qed.

Lemma wf_attr_rating o : within_fuel (attr_rating o).
Proof. intros w. rewrite attr_rating_rate. destruct (rate w o); discriminate. Qed.

Lemma wf_item l i : within_fuel (item l i).
Proof. intros w. unfold item. destruct (l !! i); discriminate. Qed.

Lemma wf_set_remove x s : within_fuel (set_remove x s).
Proof.
  intros w. destruct x as [o|]; simpl; [|discriminate].
  destruct (obj_in o s); discriminate.
Qed.

Create HintDb fuel discriminated.
#[local] Hint Resolve wf_ret wf_attr_nodes wf_attr_user_nodes wf_subscript
  wf_read_node wf_attr_rating wf_item wf_set_remove : fuel.

Ltac fuel_steps :=
  repeat first
    [ progress eauto with fuel
    | apply wf_bind; [|intros ?]
    | apply wf_for_fold; intros ? ?
    | match goal with
      | |- within_fuel (if ?b then _ else _) => destruct b
      end ].

Lemma wf_highest_scoring_game l : within_fuel (highest_scoring_game l).
Proof. unfold highest_scoring_game, highest_step. fuel_steps. Qed.

Lemma wf_sort_games l : within_fuel (sort_games l).
Proof. unfold sort_games, sort_outer, sort_inner. fuel_steps. Qed.

#[local] Hint Resolve wf_highest_scoring_game wf_sort_games : fuel.

Lemma set_remove_shrinks x s w v :
  set_remove x s w = Ok v w -> S (length (snd v)) = length s.
Proof.
  destruct x as [o|]; simpl; [|discriminate].
  unfold obj_in. destruct (bool_decide (o ∈ s)) eqn:E; [|discriminate].
  apply bool_decide_eq_true in E. intros [= <-]. simpl. now apply discard_length.
Qed.

(** With more fuel than candidates, the loop of [top_games] ends by
    itself: each round removes a candidate or raises. *)
Lemma top_games_loop_fuel fuel : forall total possible actual,
  (length possible < fuel)%nat ->
  within_fuel (top_games_loop fuel total possible actual).
Proof.
  induction fuel as [|fuel IH]; intros total possible actual Hlen w; [lia|].
  simpl. destruct (negb _ || _); [|discriminate].
  unfold bind at 1.
  destruct (ro_outcome _ w (ro_highest_scoring_game possible)) as [[g Hg]|[e He]].
  2:{ pose proof (wf_highest_scoring_game possible w) as H. rewrite He in *. exact H. }
  rewrite Hg. unfold bind at 1.
  destruct (ro_outcome _ w (ro_set_remove g possible)) as [[v Hv]|[e He]].
  2:{ pose proof (wf_set_remove g possible w) as H. rewrite He in *. exact H. }
  rewrite Hv. apply IH. apply set_remove_shrinks in Hv. lia.
Qed.

Lemma neighbour_loop_fuel fuel : forall total possible actual,
  (length possible < fuel)%nat ->
  within_fuel (neighbour_loop fuel total possible actual).
Proof.
  induction fuel as [|fuel IH]; intros total possible actual Hlen w; [lia|].
  simpl. destruct (negb _ || _); [|discriminate].
  unfold bind at 1.
  destruct (ro_outcome _ w (ro_highest_scoring_game possible)) as [[g Hg]|[e He]].
  2:{ pose proof (wf_highest_scoring_game possible w) as H. rewrite He in *. exact H. }
  rewrite Hg. unfold bind at 1.
  destruct (ro_outcome _ w (ro_set_remove g possible)) as [[v Hv]|[e He]].
  2:{ pose proof (wf_set_remove g possible w) as H. rewrite He in *. exact H. }
  rewrite Hv. apply IH. apply set_remove_shrinks in Hv. lia.
Qed.

Lemma top_games_within_fuel set_iter total : within_fuel (top_games set_iter total).
Proof.
  unfold top_games, node_of_id.
  repeat first
    [ apply top_games_loop_fuel; lia
    | progress eauto with fuel
    | apply wf_bind; [|intros ?]
    | apply wf_for_fold; intros ? ? ].
Qed.

Lemma highest_scoring_games_within_fuel set_iter total :
  within_fuel (highest_scoring_games set_iter total).
Proof.
  unfold highest_scoring_games, user_node_of_id, pool_step.
  repeat first
    [ apply neighbour_loop_fuel; lia
    | apply top_games_within_fuel
    | progress eauto with fuel
    | apply wf_bind; [|intros ?]
    | apply wf_for_fold; intros ? ?
    | match goal with
      | |- within_fuel (if ?b then _ else _) => destruct b
      end ].
Qed.

(** * Further properties *)

(** ** Loops over a mapping *)

Lemma dict_get_elem (d : dict) k r : dict_get k d = Some r -> (k, r) ∈ d.
Proof.
  induction d as [|[k' r'] d IH]; simpl; [discriminate|].
  destruct (Z.eqb_spec k' k) as [->|Hne].
  - intros [= ->]. left.
  - intros H. right. auto.
Qed.

Lemma for_fold_pure {B} (w : world) (d : dict) (body : B -> Z -> M B)
    (f : B -> Z * nat -> B) :
  (forall b kr, kr ∈ d -> body b (fst kr) w = Ok (f b kr) w) ->
  forall b, for_fold (dict_keys d) body b w = Ok (fold_left f d b) w.
Proof.
  induction d as [|kr d IH]; intros Hbody b; simpl; [reflexivity|].
  rewrite (bind_ok _ _ _ _ _ (Hbody b kr (list_elem_of_here _ _))).
  apply IH. intros b' kr' Hin. apply Hbody. now right.
Qed.

Lemma node_of_id_member w all k r :
  _nodes (self w) = Some all -> NoDup (dict_keys all) -> (k, r) ∈ all ->
  node_of_id k w = Ok (node_at w r) w.
Proof.
  intros Hn Hnd Hin. unfold node_of_id, bind, attr_nodes, subscript.
  now rewrite Hn, (dict_get_member all k r Hnd Hin).
Qed.

Lemma user_node_of_id_member w users k r :
  _user_nodes (self w) = Some users -> NoDup (dict_keys users) -> (k, r) ∈ users ->
  user_node_of_id k w = Ok (node_at w r) w.
Proof.
  intros Hn Hnd Hin. unfold user_node_of_id, bind, attr_user_nodes, subscript.
  now rewrite Hn, (dict_get_member users k r Hnd Hin).
Qed.

(** ** [max_price] and [max_positive_ratio] *)

Lemma ltb_number x y : PrimFloat.ltb x y = true -> number x /\ number y.
Proof.
  rewrite FloatAxioms.ltb_spec. unfold number.
  destruct (Prim2SF x), (Prim2SF y); simpl; try discriminate; auto.
Qed.

Lemma ltb_leb x y : PrimFloat.ltb x y = true -> PrimFloat.leb x y = true.
Proof.
  intros H. destruct (ltb_number _ _ H) as [Hx Hy].
  rewrite FloatAxioms.ltb_spec in H. rewrite FloatAxioms.leb_spec.
  apply (SFltb_key _ _ Hx Hy) in H. apply (SFleb_key _ _ Hx Hy).
  destruct (key_le_total (fkey (Prim2SF x)) (fkey (Prim2SF y))); [assumption | contradiction].
Qed.

Lemma leb_refl x : number x -> PrimFloat.leb x x = true.
Proof.
  intros Hx. rewrite FloatAxioms.leb_spec. apply (SFleb_key _ _ Hx Hx).
  destruct (key_le_total (fkey (Prim2SF x)) (fkey (Prim2SF x))); assumption.
Qed.

Lemma key_le_dec x y : key_le x y \/ ~ key_le x y.
Proof. destruct x as [[a b] c], y as [[a' b'] c']. simpl. lia. Qed.

Lemma not_ltb_leb x y :
  number x -> number y -> PrimFloat.ltb x y = false -> PrimFloat.leb y x = true.
Proof.
  intros Hx Hy H. rewrite FloatAxioms.leb_spec. apply (SFleb_key _ _ Hy Hx).
  destruct (key_le_dec (fkey (Prim2SF y)) (fkey (Prim2SF x))) as [Hle|Hn]; [exact Hle|].
  apply (SFltb_key _ _ Hx Hy) in Hn. rewrite FloatAxioms.ltb_spec in H. congruence.
Qed.

Lemma price_step_ge w m kr :
  number m -> PrimFloat.leb m (price_step w m kr) = true.
Proof.
  intros Hm. unfold price_step.
  destruct (PrimFloat.ltb m _) eqn:E; [now apply ltb_leb | now apply leb_refl].
Qed.

Lemma fold_price_ge w d : forall m,
  number m -> PrimFloat.leb m (fold_left (price_step w) d m) = true.
Proof.
  induction d as [|kr d IH]; intros m Hm; simpl; [now apply leb_refl|].
  pose proof (price_step_ge w m kr Hm) as H1.
  eapply leb_trans; [exact H1|]. apply IH. apply (leb_number _ _ H1).
Qed.

Lemma fold_price_upper w d : forall m kr,
  number m -> kr ∈ d -> number (price (game_of w (snd kr))) ->
  PrimFloat.leb (price (game_of w (snd kr))) (fold_left (price_step w) d m) = true.
Proof.
  induction d as [|kr' d IH]; intros m kr Hm Hin Hp; [inversion Hin|]. simpl.
  pose proof (price_step_ge w m kr' Hm) as H1.
  destruct (leb_number _ _ H1) as [_ Hm'].
  apply elem_of_cons in Hin as [->|Hin]; [|now apply IH].
  eapply leb_trans; [|apply fold_price_ge; exact Hm'].
  unfold price_step. destruct (PrimFloat.ltb m _) eqn:E.
  - now apply leb_refl.
  - now apply not_ltb_leb.
Qed.

Lemma fold_price_origin w d : forall m,
  fold_left (price_step w) d m = m \/
  exists kr, kr ∈ d /\ fold_left (price_step w) d m = price (game_of w (snd kr)).
Proof.
  induction d as [|kr d IH]; intros m; simpl; [now left|].
  destruct (IH (price_step w m kr)) as [->|(kr' & Hin & ->)].
  - unfold price_step. destruct (PrimFloat.ltb m _); [|now left].
    right. exists kr. split; [left | reflexivity].
  - right. exists kr'. split; [now right | reflexivity].
Qed.

Lemma max_price_fold w all :
  _nodes (self w) = Some all -> NoDup (dict_keys all) ->
  max_price w = Ok (fold_left (price_step w) all 0%float) w.
Proof.
  intros Hn Hnd. unfold max_price.
  assert (Ha : attr_nodes w = Ok all w) by (unfold attr_nodes; now rewrite Hn).
  rewrite (bind_ok _ _ _ _ _ Ha).
  apply for_fold_pure. intros m [k r] Hin. simpl fst.
  rewrite (bind_ok _ _ _ _ _ (node_of_id_member w all k r Hn Hnd Hin)).
  unfold bind, read_game, price_step, game_of. simpl.
  destruct (PrimFloat.ltb m _); reflexivity.
Qed.

(** X1. [max_price] returns a number that is never negative (0.0 for a
    graph without nodes, or with negative prices only), that is at least
    the price of every game of the graph whose price is a number, and
    that is 0.0 or the price of one of the games. *)
Theorem max_price_is_maximum (w : world) (all : dict) :
  _nodes (self w) = Some all ->
  NoDup (dict_keys all) ->
  exists m,
    max_price w = Ok m w /\
    PrimFloat.leb 0 m = true /\
    (forall k r, dict_get k all = Some r -> number (price (game_of w r)) ->
       PrimFloat.leb (price (game_of w r)) m = true) /\
    (m = 0%float \/ exists k r, dict_get k all = Some r /\ m = price (game_of w r)).
Proof.
  intros Hn Hnd. exists (fold_left (price_step w) all 0%float).
  split; [now apply max_price_fold|]. split; [apply fold_price_ge, number_zero|]. split.
  - intros k r Hk Hp.
    apply (fold_price_upper w all 0%float (k, r) number_zero (dict_get_elem _ _ _ Hk) Hp).
  - destruct (fold_price_origin w all 0%float) as [->|([k r] & Hin & ->)]; [now left|].
    right. exists k, r. split; [now apply dict_get_member | reflexivity].
Qed.

Lemma max_price_is_maximum_witness :
  (_nodes (self scenario) = Some [(1, 0%nat); (2, 1%nat)] /\
   NoDup (dict_keys [(1, 0%nat); (2, 1%nat)])) /\
  max_price scenario = Ok 60%float scenario /\
  exists m,
    max_price scenario = Ok m scenario /\
    PrimFloat.leb 0 m = true /\
    (forall k r, dict_get k [(1, 0%nat); (2, 1%nat)] = Some r ->
       number (price (game_of scenario r)) ->
       PrimFloat.leb (price (game_of scenario r)) m = true) /\
    (m = 0%float \/
     exists k r, dict_get k [(1, 0%nat); (2, 1%nat)] = Some r /\
                 m = price (game_of scenario r)).
Proof.
  assert (Hk : NoDup (dict_keys [(1, 0%nat); (2, 1%nat)])) by compute_done.
  split; [split; [reflexivity | exact Hk]|].
  split; [reflexivity|].
  apply (max_price_is_maximum scenario [(1, 0%nat); (2, 1%nat)]); [reflexivity | exact Hk].
Defined.

Lemma fold_ratio_facts w d : forall m,
  m <= fold_left (ratio_step w) d m /\
  (forall kr, kr ∈ d -> positive_ratio (game_of w (snd kr)) <= fold_left (ratio_step w) d m) /\
  (fold_left (ratio_step w) d m = m \/
   exists kr, kr ∈ d /\ fold_left (ratio_step w) d m = positive_ratio (game_of w (snd kr))).
Proof.
  induction d as [|kr d IH]; intros m; simpl.
  - split; [lia|]. split; [|now left]. intros kr Hin. inversion Hin.
  - destruct (IH (ratio_step w m kr)) as (Hge & Hup & Horig).
    assert (Hstep : m <= ratio_step w m kr /\
                    positive_ratio (game_of w (snd kr)) <= ratio_step w m kr).
    { unfold ratio_step. destruct (Z.ltb_spec m (positive_ratio (game_of w (snd kr)))); lia. }
    split; [lia|]. split.
    + intros kr' Hin. apply elem_of_cons in Hin as [->|Hin]; [lia | auto].
    + destruct Horig as [->|(kr' & Hin & ->)].
      * unfold ratio_step. destruct (m <? _); [|now left].
        right. exists kr. split; [left | reflexivity].
      * right. exists kr'. split; [now right | reflexivity].
Qed.

Lemma max_positive_ratio_fold w all :
  _nodes (self w) = Some all -> NoDup (dict_keys all) ->
  max_positive_ratio w = Ok (fold_left (ratio_step w) all 0) w.
Proof.
  intros Hn Hnd. unfold max_positive_ratio.
  assert (Ha : attr_nodes w = Ok all w) by (unfold attr_nodes; now rewrite Hn).
  rewrite (bind_ok _ _ _ _ _ Ha).
  apply for_fold_pure. intros m [k r] Hin. simpl fst.
  rewrite (bind_ok _ _ _ _ _ (node_of_id_member w all k r Hn Hnd Hin)).
  unfold bind, read_game, ratio_step, game_of. simpl.
  destruct (m <? _); reflexivity.
Qed.

(** X2. [max_positive_ratio] returns an integer that is never negative,
    that is at least the ratio of every game of the graph, and that is 0
    or the ratio of one of the games. *)
Theorem max_positive_ratio_is_maximum (w : world) (all : dict) :
  _nodes (self w) = Some all ->
  NoDup (dict_keys all) ->
  exists m,
    max_positive_ratio w = Ok m w /\
    0 <= m /\
    (forall k r, dict_get k all = Some r -> positive_ratio (game_of w r) <= m) /\
    (m = 0 \/ exists k r, dict_get k all = Some r /\ m = positive_ratio (game_of w r)).
Proof.
  intros Hn Hnd. exists (fold_left (ratio_step w) all 0).
  destruct (fold_ratio_facts w all 0) as (Hge & Hup & Horig).
  split; [now apply max_positive_ratio_fold|]. split; [exact Hge|]. split.
  - intros k r Hk. apply (Hup (k, r)). now apply dict_get_elem.
  - destruct Horig as [->|([k r] & Hin & ->)]; [now left|].
    right. exists k, r. split; [now apply dict_get_member | reflexivity].
Qed.

Lemma max_positive_ratio_is_maximum_witness :
  (_nodes (self scenario) = Some [(1, 0%nat); (2, 1%nat)] /\
   NoDup (dict_keys [(1, 0%nat); (2, 1%nat)])) /\
  max_positive_ratio scenario = Ok 90 scenario /\
  exists m,
    max_positive_ratio scenario = Ok m scenario /\
    0 <= m /\
    (forall k r, dict_get k [(1, 0%nat); (2, 1%nat)] = Some r ->
       positive_ratio (game_of scenario r) <= m) /\
    (m = 0 \/
     exists k r, dict_get k [(1, 0%nat); (2, 1%nat)] = Some r /\
                 m = positive_ratio (game_of scenario r)).
Proof.
  assert (Hk : NoDup (dict_keys [(1, 0%nat); (2, 1%nat)])) by compute_done.
  split; [split; [reflexivity | exact Hk]|].
  split; [reflexivity|].
  apply (max_positive_ratio_is_maximum scenario [(1, 0%nat); (2, 1%nat)]);
    [reflexivity | exact Hk].
Defined.

(** ** [user_genres] and [edges_exist] *)

Lemma str_in_spec s l : str_in s l = true <-> s ∈ l.
Proof.
  unfold str_in. rewrite existsb_exists. split.
  - intros (x & Hin & Heq). apply String.eqb_eq in Heq. subst x.
    now apply list_elem_of_In.
  - intros Hin. exists s. split; [now apply list_elem_of_In | apply String.eqb_refl].
Qed.

Lemma str_set_add_facts l x :
  NoDup l ->
  NoDup (str_set_add l x) /\ (forall s, s ∈ str_set_add l x <-> s ∈ l \/ s = x).
Proof.
  intros Hnd. unfold str_set_add. destruct (str_in x l) eqn:E.
  - apply str_in_spec in E. split; [exact Hnd|].
    intros s. split; [auto | intros [H| ->]; assumption].
  - assert (Hx : x ∉ l) by (intros H; apply str_in_spec in H; congruence).
    split.
    + apply NoDup_app. repeat split; [exact Hnd | | apply NoDup_singleton].
      intros y Hy Hy'. apply list_elem_of_singleton in Hy'. now subst y.
    + intros s. rewrite elem_of_app, list_elem_of_singleton. reflexivity.
Qed.

Lemma fold_str_set_add xs : forall l,
  NoDup l ->
  NoDup (fold_left str_set_add xs l) /\
  (forall s, s ∈ fold_left str_set_add xs l <-> s ∈ l \/ s ∈ xs).
Proof.
  induction xs as [|x xs IH]; intros l Hnd; simpl.
  - split; [exact Hnd|]. intros s. split; [auto | intros [H|H]; [exact H | inversion H]].
  - destruct (str_set_add_facts l x Hnd) as [Hnd' Hmem].
    destruct (IH _ Hnd') as [Hnd'' Hmem'']. split; [exact Hnd''|].
    intros s. rewrite Hmem'', Hmem, elem_of_cons. tauto.
Qed.

Lemma fold_genres_step w d : forall l,
  NoDup l ->
  NoDup (fold_left (genres_step w) d l) /\
  (forall s, s ∈ fold_left (genres_step w) d l <->
             s ∈ l \/ exists kr, kr ∈ d /\ s ∈ genres (game_of w (snd kr))).
Proof.
  induction d as [|kr d IH]; intros l Hnd; simpl.
  - split; [exact Hnd|]. intros s. split; [auto|].
    intros [H|(kr & Hin & _)]; [exact H | inversion Hin].
  - destruct (fold_str_set_add (genres (game_of w (snd kr))) l Hnd) as [Hnd' Hmem].
    destruct (IH (genres_step w l kr) Hnd') as [Hnd'' Hmem'']. split; [exact Hnd''|].
    assert (Hmem2 : forall s, s ∈ genres_step w l kr <->
                              s ∈ l \/ s ∈ genres (game_of w (snd kr))) by exact Hmem.
    intros s. rewrite Hmem'', Hmem2. split.
    + intros [[H|H]|(kr' & Hin & H)]; [now left | |].
      * right. exists kr. split; [left | exact H].
      * right. exists kr'. split; [now right | exact H].
    + intros [H|(kr' & Hin & H)]; [now left; left|].
      apply elem_of_cons in Hin as [->|Hin]; [left; now right|].
      right. exists kr'. now split.
Qed.

(** X3. [user_genres] returns the configured genres when there are any,
    without looking at the anchors.  Otherwise it returns the genres of
    the anchors' games, each once, compared as written (case matters):
    a genre is in the result exactly when a game of an anchor has it. *)
Theorem user_genres_result (w : world) (users : dict) :
  _user_nodes (self w) = Some users ->
  NoDup (dict_keys users) ->
  exists l,
    user_genres w = Ok l w /\
    (user_game_genres (self w) <> [] -> l = user_game_genres (self w)) /\
    (user_game_genres (self w) = [] ->
       NoDup l /\
       forall s, s ∈ l <->
                 exists k r, dict_get k users = Some r /\ s ∈ genres (game_of w r)).
Proof.
  intros Hu Hnd. unfold user_genres, bind, read_self.
  destruct (user_game_genres (self w)) as [|g gs] eqn:Eg; simpl.
  - assert (Ha : attr_user_nodes w = Ok users w)
      by (unfold attr_user_nodes; now rewrite Hu).
    rewrite Ha.
    rewrite (for_fold_pure w users _ (genres_step w)).
    + eexists. split; [reflexivity|]. split; [congruence|]. intros _.
      destruct (fold_genres_step w users [] (NoDup_nil_2)) as [Hnd' Hmem].
      split; [exact Hnd'|]. intros s. rewrite Hmem. split.
      * intros [H|([k r] & Hin & H)]; [inversion H|].
        exists k, r. split; [now apply dict_get_member | exact H].
      * intros (k & r & Hk & H). right. exists (k, r).
        split; [now apply dict_get_elem | exact H].
    + intros acc [k r] Hin. simpl fst.
      rewrite (user_node_of_id_member w users k r Hu Hnd Hin). reflexivity.
  - eexists. split; [reflexivity|]. split; [reflexivity | discriminate].
Qed.

Lemma user_genres_result_witness :
  (_user_nodes (self scenario) = Some [(1, 0%nat)] /\
   NoDup (dict_keys [(1, 0%nat)])) /\
  user_genres scenario = Ok ["RPG"%string] scenario /\
  exists l,
    user_genres scenario = Ok l scenario /\
    (user_game_genres (self scenario) <> [] -> l = user_game_genres (self scenario)) /\
    (user_game_genres (self scenario) = [] ->
       NoDup l /\
       forall s, s ∈ l <->
                 exists k r, dict_get k [(1, 0%nat)] = Some r /\
                             s ∈ genres (game_of scenario r)).
Proof.
  assert (Hk : NoDup (dict_keys [(1, 0%nat)])) by compute_done.
  split; [split; [reflexivity | exact Hk]|].
  split; [reflexivity|].
  apply (user_genres_result scenario [(1, 0%nat)]); [reflexivity | exact Hk].
Defined.

Lemma edges_exist_loop_result w users :
  _user_nodes (self w) = Some users -> NoDup (dict_keys users) ->
  forall d, (forall kr, kr ∈ d -> kr ∈ users) ->
  edges_exist_loop (dict_keys d) w = Ok (negb (pool_empty w d)) w.
Proof.
  intros Hu Hnd. induction d as [|[k r] d IH]; intros Hsub; [reflexivity|].
  simpl edges_exist_loop.
  rewrite (bind_ok _ _ _ _ _
             (user_node_of_id_member w users k r Hu Hnd (Hsub _ (list_elem_of_here _ _)))).
  unfold pool_empty. simpl.
  destruct (neighbours (node_at w r)); simpl; [|reflexivity].
  apply IH. intros kr Hin. apply Hsub. now right.
Qed.

(** X4. [edges_exist] answers whether some anchor has a neighbour: it is
    False for a graph without anchors, and True exactly when the
    candidate pool of [highest_scoring_games] is not empty. *)
Theorem edges_exist_result (w : world) (users : dict) :
  _user_nodes (self w) = Some users ->
  NoDup (dict_keys users) ->
  exists b,
    edges_exist w = Ok b w /\
    (b = true <-> exists k r, dict_get k users = Some r /\ neighbours (node_at w r) <> []) /\
    (b = false <-> pool_of w users = []).
Proof.
  intros Hu Hnd. exists (negb (pool_empty w users)). split.
  - unfold edges_exist.
    assert (Ha : attr_user_nodes w = Ok users w)
      by (unfold attr_user_nodes; now rewrite Hu).
    rewrite (bind_ok _ _ _ _ _ Ha).
    apply (edges_exist_loop_result w users Hu Hnd users). auto.
  - assert (Hpe : pool_empty w users = true <->
                  forall kr, kr ∈ users -> neighbours (node_at w (snd kr)) = []).
    { unfold pool_empty. rewrite forallb_forall. split.
      - intros H kr Hin. specialize (H kr (proj1 (list_elem_of_In _ _) Hin)).
        now destruct (neighbours (node_at w (snd kr))).
      - intros H kr Hin. rewrite (H kr) by (now apply list_elem_of_In). reflexivity. }
    split.
    + rewrite negb_true_iff, <- not_true_iff_false, Hpe. split.
      * intros Hn.
        assert (Hex : exists kr, kr ∈ users /\ neighbours (node_at w (snd kr)) <> []).
        { clear -Hn. induction users as [|kr d IH].
          - exfalso. apply Hn. intros kr Hin. inversion Hin.
          - destruct (neighbours (node_at w (snd kr))) as [|x xs] eqn:E.
            + destruct IH as (kr' & Hin & H).
              * intros Hall. apply Hn. intros kr' Hin.
                apply elem_of_cons in Hin as [->|Hin]; [exact E | auto].
              * exists kr'. split; [now right | exact H].
            + exists kr. split; [left | now rewrite E]. }
        destruct Hex as ([k r] & Hin & H). exists k, r.
        split; [now apply dict_get_member | exact H].
      * intros (k & r & Hk & H) Hall. apply H.
        apply (Hall (k, r)). now apply dict_get_elem.
    + rewrite negb_false_iff, Hpe. unfold pool_of. split.
      * intros Hall. clear -Hall. induction users as [|kr d IH]; [reflexivity|]. simpl.
        rewrite (Hall kr) by left. simpl. apply IH.
        intros kr' Hin. apply Hall. now right.
      * intros Hnil kr Hin. clear -Hnil Hin.
        induction users as [|kr' d IH]; [inversion Hin|]. simpl in Hnil.
        apply app_eq_nil in Hnil as [H1 H2].
        apply elem_of_cons in Hin as [->|Hin]; [|auto].
        now destruct (neighbours (node_at w (snd kr'))).
Qed.

Lemma edges_exist_result_witness :
  (_user_nodes (self scenario) = Some [(1, 0%nat)] /\
   NoDup (dict_keys [(1, 0%nat)])) /\
  edges_exist scenario = Ok true scenario /\
  exists b,
    edges_exist scenario = Ok b scenario /\
    (b = true <-> exists k r, dict_get k [(1, 0%nat)] = Some r /\
                              neighbours (node_at scenario r) <> []) /\
    (b = false <-> pool_of scenario [(1, 0%nat)] = []).
Proof.
  assert (Hk : NoDup (dict_keys [(1, 0%nat)])) by compute_done.
  split; [split; [reflexivity | exact Hk]|].
  split; [reflexivity|].
  apply (edges_exist_result scenario [(1, 0%nat)]); [reflexivity | exact Hk].
Defined.

(** ** [add_game]: what an insertion leaves alone *)

Lemma dict_get_set_other k k' v d : k <> k' -> dict_get k (dict_set k' v d) = dict_get k d.
Proof.
  intros Hne. induction d as [|[k0 v0] d IH]; simpl.
  - destruct (Z.eqb_spec k' k); [congruence | reflexivity].
  - destruct (Z.eqb_spec k0 k') as [->|Hne0]; simpl.
    + destruct (Z.eqb_spec k' k); [congruence | reflexivity].
    + destruct (Z.eqb_spec k0 k); [reflexivity | exact IH].
Qed.

Lemma dict_keys_set_absent k v d :
  dict_get k d = None -> dict_keys (dict_set k v d) = dict_keys d ++ [k].
Proof.
  induction d as [|[k0 v0] d IH]; simpl; [reflexivity|].
  destruct (Z.eqb_spec k0 k) as [->|Hne]; [discriminate|].
  intros H. simpl. f_equal. now apply IH.
Qed.

Lemma node_at_alloc w game g r :
  (r < length (nodes w))%nat ->
  node_at (mkWorld (games w) (nodes w ++ [mkGameNode game []]) g) r = node_at w r.
Proof. intros Hr. unfold node_at. simpl. now rewrite lookup_app_l. Qed.

Lemma node_at_fresh w game g :
  node_at (mkWorld (games w) (nodes w ++ [mkGameNode game []]) g) (length (nodes w))
  = mkGameNode game [].
Proof. unfold node_at. simpl. rewrite lookup_app_r by lia. now rewrite Nat.sub_diag. Qed.

(** The store [add_game] leaves behind, whether it returns or raises
    after the assignment to [_nodes]. *)
Lemma add_game_state w game d :
  _nodes (self w) = Some d ->
  let id := game_id (game_at w game) in
  let fresh := length (nodes w) in
  exists uo,
    state_of (add_game game w)
    = mkWorld (games w) (nodes w ++ [mkGameNode game []])
        (mkGameGraph (user_game_ids (self w)) (user_game_genres (self w))
           (user_max_price (self w)) (Some (dict_set id fresh d)) uo) /\
    (uo = _user_nodes (self w) \/
     exists ud, _user_nodes (self w) = Some ud /\ uo = Some (dict_set id fresh ud)) /\
    (_user_nodes (self w) <> None -> raised (add_game game w) = None).
Proof.
  intros Hd id fresh.
  unfold add_game, bind, read_game, new_GameNode, nodes_setitem, read_self. simpl.
  rewrite Hd. simpl. destruct (py_in _ _).
  - unfold user_nodes_setitem. simpl.
    destruct (_user_nodes (self w)) as [ud|] eqn:Eu; simpl.
    + eexists. split; [reflexivity|]. split; [right; eauto | reflexivity].
    + eexists. split; [reflexivity|]. split; [now left | congruence].
  - eexists. split; [reflexivity|]. split; [now left | reflexivity].
Qed.

(** X5. An insertion touches nothing but the entry of its own id: it
    returns normally when both mappings exist, the game objects and the
    existing node objects are as before, every other id is bound as
    before, and an id that was not a key becomes the last key. *)
Theorem add_game_frame (w : world) (game : nat) (d ud : dict) :
  _nodes (self w) = Some d ->
  _user_nodes (self w) = Some ud ->
  exists w' d',
    add_game game w = Ok tt w' /\
    games w' = games w /\
    (forall r, (r < length (nodes w))%nat -> node_at w' r = node_at w r) /\
    _nodes (self w') = Some d' /\
    (forall k, k <> game_id (game_at w game) -> dict_get k d' = dict_get k d) /\
    (dict_get (game_id (game_at w game)) d = None ->
     dict_keys d' = dict_keys d ++ [game_id (game_at w game)]).
Proof.
  intros Hd Hu.
  destruct (add_game_state w game d Hd) as (uo & Hst & _ & Hok).
  assert (Hr : raised (add_game game w) = None) by (apply Hok; congruence).
  destruct (add_game game w) as [[] w'|e w'] eqn:E; [|discriminate].
  simpl in Hst. subst w'.
  eexists _, _. split; [reflexivity|]. split; [reflexivity|]. split.
  - intros r Hlt. now apply node_at_alloc.
  - split; [reflexivity|]. split.
    + intros k Hk. now apply dict_get_set_other.
    + apply dict_keys_set_absent.
Qed.

Lemma add_game_frame_witness :
  (_nodes (self catalog_with_1) = Some [(1, 0%nat)] /\
   _user_nodes (self catalog_with_1) = Some []) /\
  exists w' d',
    add_game 1 catalog_with_1 = Ok tt w' /\
    games w' = games catalog_with_1 /\
    (forall r, (r < length (nodes catalog_with_1))%nat ->
       node_at w' r = node_at catalog_with_1 r) /\
    _nodes (self w') = Some d' /\
    (forall k, k <> game_id (game_at catalog_with_1 1) ->
       dict_get k d' = dict_get k [(1, 0%nat)]) /\
    (dict_get (game_id (game_at catalog_with_1 1)) [(1, 0%nat)] = None ->
     dict_keys d' = dict_keys [(1, 0%nat)] ++ [game_id (game_at catalog_with_1 1)]).
Proof.
  split; [split; reflexivity|].
  apply (add_game_frame catalog_with_1 1 [(1, 0%nat)] []); reflexivity.
Defined.

(** X6. [add_game] keeps the representation invariants of [GameGraph],
    whether it returns or raises: afterwards, too, every key of [_nodes]
    is the id of the game of its node, and every key of [_user_nodes] is
    a key of [_nodes]. *)
Theorem add_game_keeps_invariants (w : world) (game : nat) :
  rep_inv w -> rep_inv (state_of (add_game game w)).
Proof.
  intros Hinv nd' Hnd'.
  destruct (_nodes (self w)) as [d|] eqn:Hd.
  2:{ destruct (add_game_no_mapping game w Hd) as [_ Hs].
      rewrite Hs, Hd in Hnd'. discriminate. }
  destruct (Hinv d Hd) as [Hkeys Hanch].
  destruct (add_game_state w game d Hd) as (uo & Hst & Huo & _).
  rewrite Hst in *. simpl in Hnd'. injection Hnd' as <-.
  set (id := game_id (game_at w game)) in *.
  set (fresh := length (nodes w)) in *.
  split.
  - intros k r Hk. destruct (Z.eq_dec k id) as [->|Hne].
    + rewrite dict_get_set_same in Hk. injection Hk as <-. simpl.
      rewrite length_app. simpl. split; [unfold fresh; lia|].
      unfold game_of. unfold fresh. now rewrite node_at_fresh.
    + rewrite dict_get_set_other in Hk by exact Hne.
      destruct (Hkeys k r Hk) as [Hlt Hid]. simpl.
      rewrite length_app. simpl. split; [lia|].
      unfold game_of. now rewrite node_at_alloc.
  - intros ud' k r Hud' Hk. simpl in Hud'.
    destruct (Z.eq_dec k id) as [->|Hne]; [now rewrite dict_get_set_same|].
    rewrite dict_get_set_other by exact Hne.
    destruct Huo as [->|(ud & Hu & ->)].
    + eapply Hanch; eassumption.
    + injection Hud' as <-. rewrite dict_get_set_other in Hk by exact Hne.
      eapply Hanch; eassumption.
Qed.

Lemma add_game_keeps_invariants_witness :
  rep_inv (by_name ["a"%string]) /\
  rep_inv (state_of (add_game 0 (by_name ["a"%string]))) /\
  self (state_of (add_game 0 (by_name ["a"%string])))
  = mkGameGraph [PStr "a"] [] 50%float (Some [(1, 0%nat)]) (Some [(1, 0%nat)]).
Proof.
  assert (H : rep_inv (by_name ["a"%string])).
  { intros nd Hnd. simpl in Hnd. injection Hnd as <-. split.
    - intros k r Hk. discriminate.
    - intros ud k r Hud Hk. simpl in Hud. injection Hud as <-. discriminate. }
  split; [exact H|]. split; [|reflexivity].
  apply (add_game_keeps_invariants (by_name ["a"%string]) 0 H).
Defined.

(** X7. A node becomes an anchor by the name of its game, whatever the
    case of the letters in that name.  For a game whose name is made of
    ASCII characters: when the lower-cased name is in [user_game_ids],
    the new node is bound to the id in [_user_nodes] as well, the same
    node object as in [_nodes]; when it is not, [_user_nodes] stays as
    it is.  Other ids keep their anchors. *)
Theorem add_game_registers_by_name (w : world) (game : nat) (d ud : dict) :
  _nodes (self w) = Some d ->
  _user_nodes (self w) = Some ud ->
  is_ascii (name (game_at w game)) = true ->
  let g := game_at w game in
  let listed := py_in (PStr (lower (name g))) (user_game_ids (self w)) in
  exists w' d' ud',
    add_game game w = Ok tt w' /\
    _nodes (self w') = Some d' /\
    _user_nodes (self w') = Some ud' /\
    dict_get (game_id g) d' = Some (length (nodes w)) /\
    (listed = true -> dict_get (game_id g) ud' = Some (length (nodes w))) /\
    (listed = false -> ud' = ud) /\
    (forall k, k <> game_id g -> dict_get k ud' = dict_get k ud).
Proof.
  intros Hd Hu _ g listed. unfold listed, g.
  unfold add_game, bind, read_game, new_GameNode, nodes_setitem, read_self. simpl.
  rewrite Hd. simpl. destruct (py_in _ _).
  - unfold user_nodes_setitem. simpl. rewrite Hu.
    eexists _, _, _. split; [reflexivity|]. simpl.
    split; [reflexivity|]. split; [reflexivity|].
    split; [apply dict_get_set_same|]. split; [intros _; apply dict_get_set_same|].
    split; [discriminate|]. intros k Hk. now apply dict_get_set_other.
  - eexists _, _, _. split; [reflexivity|]. simpl.
    split; [reflexivity|]. split; [exact Hu|].
    split; [apply dict_get_set_same|]. split; [discriminate|].
    split; [reflexivity|]. reflexivity.
Qed.

Lemma add_game_registers_by_name_witness :
  (_nodes (self (by_name ["a"%string])) = Some [] /\
   _user_nodes (self (by_name ["a"%string])) = Some [] /\
   is_ascii (name (game_at (by_name ["a"%string]) 0)) = true) /\
  lower (name (game_at (by_name ["a"%string]) 0)) = "a"%string /\
  self (state_of (add_game 0 (by_name ["a"%string])))
  = mkGameGraph [PStr "a"] [] 50%float (Some [(1, 0%nat)]) (Some [(1, 0%nat)]) /\
  self (state_of (add_game 1 (by_name ["a"%string])))
  = mkGameGraph [PStr "a"] [] 50%float (Some [(2, 0%nat)]) (Some []) /\
  exists w' d' ud',
    add_game 0 (by_name ["a"%string]) = Ok tt w' /\
    _nodes (self w') = Some d' /\
    _user_nodes (self w') = Some ud' /\
    dict_get (game_id (game_at (by_name ["a"%string]) 0)) d'
    = Some (length (nodes (by_name ["a"%string]))) /\
    (py_in (PStr (lower (name (game_at (by_name ["a"%string]) 0))))
       (user_game_ids (self (by_name ["a"%string]))) = true ->
     dict_get (game_id (game_at (by_name ["a"%string]) 0)) ud'
     = Some (length (nodes (by_name ["a"%string])))) /\
    (py_in (PStr (lower (name (game_at (by_name ["a"%string]) 0))))
       (user_game_ids (self (by_name ["a"%string]))) = false -> ud' = []) /\
    (forall k, k <> game_id (game_at (by_name ["a"%string]) 0) ->
       dict_get k ud' = dict_get k []).
Proof.
  split; [repeat split; reflexivity|].
  split; [reflexivity|]. split; [reflexivity|]. split; [reflexivity|].
  apply (add_game_registers_by_name (by_name ["a"%string]) 0 [] []); reflexivity.
Defined.

(** ** [add_edge] and [add_all_edges]: symmetry, completion, reach *)

Lemma appended_spec ops r x : x ∈ appended ops r <-> (r, x) ∈ ops.
Proof.
  unfold appended. split.
  - intros Hin. apply list_elem_of_In, in_map_iff in Hin as ([t v] & Hv & Hin).
    simpl in Hv. subst v.
    apply list_elem_of_In, list_elem_of_filter in Hin as [Ht Hin]. simpl in Ht. now subst t.
  - intros Hin. apply list_elem_of_In, in_map_iff. exists (r, x). split; [reflexivity|].
    apply list_elem_of_In, list_elem_of_filter. now split.
Qed.

Lemma neighbours_after_edits ops h r :
  neighbours (default no_node (apply_edits ops h !! r))
  = neighbours (default no_node (h !! r))
    ++ (if decide (r < length h)%nat then appended ops r else []).
Proof.
  destruct (decide (r < length h)%nat) as [Hlt|Hge].
  - now apply neighbours_apply_edits.
  - rewrite !lookup_ge_None_2; [now rewrite app_nil_r | lia |].
    rewrite apply_edits_length. lia.
Qed.

(** Edits that come in pairs between live nodes keep the store symmetric. *)
Lemma edits_keep_symmetry w ops :
  symmetric w ->
  (forall t v, (t, v) ∈ ops -> (v, t) ∈ ops /\ (t < length (nodes w))%nat) ->
  symmetric (set_nodes_heap (apply_edits ops (nodes w)) w).
Proof.
  intros Hsym Hops a b. unfold node_at. simpl.
  rewrite !neighbours_after_edits, !elem_of_app. intros [Hold|Hnew].
  - left. apply Hsym, Hold.
  - right. destruct (decide (a < length (nodes w))%nat); [|inversion Hnew].
    apply appended_spec in Hnew. destruct (Hops a b Hnew) as [Hba _].
    destruct (Hops b a Hba) as [_ Hb].
    rewrite decide_True by exact Hb. now apply appended_spec.
Qed.

(** X8. [add_edge] links two live nodes in both directions and keeps the
    representation invariant of [GameNode]: whenever a node is in
    another's neighbour list, that other is in its own. *)
Theorem add_edge_links_both (w : world) (game1 user_node : nat) :
  (game1 < length (nodes w))%nat ->
  (user_node < length (nodes w))%nat ->
  symmetric w ->
  exists w',
    add_edge game1 user_node w = Ok tt w' /\
    user_node ∈ neighbours (node_at w' game1) /\
    game1 ∈ neighbours (node_at w' user_node) /\
    symmetric w'.
Proof.
  intros Ha Hb Hsym. rewrite add_edge_edits. eexists. split; [reflexivity|].
  unfold node_at at 1 2, set_nodes_heap at 1 2. cbn [nodes].
  rewrite !neighbours_after_edits, !decide_True by assumption.
  split; [|split].
  - apply elem_of_app. right. apply appended_spec. left.
  - apply elem_of_app. right. apply appended_spec. right. left.
  - apply edits_keep_symmetry; [exact Hsym|].
    intros t v Hin. apply elem_of_cons in Hin as [[= -> ->]|Hin].
    + split; [right; left | exact Ha].
    + apply list_elem_of_singleton in Hin. injection Hin as -> ->.
      split; [left | exact Hb].
Qed.

Lemma scenario_symmetric : symmetric scenario.
Proof.
  intros [|[|a]] b Hin; unfold node_at in *; simpl in *.
  - apply list_elem_of_singleton in Hin. subst b. left.
  - apply list_elem_of_singleton in Hin. subst b. left.
  - inversion Hin.
Qed.

Lemma add_edge_links_both_witness :
  ((0 < length (nodes scenario))%nat /\
   (1 < length (nodes scenario))%nat /\
   symmetric scenario) /\
  exists w',
    add_edge 0 1 scenario = Ok tt w' /\
    1%nat ∈ neighbours (node_at w' 0) /\
    0%nat ∈ neighbours (node_at w' 1) /\
    symmetric w'.
Proof.
  split; [repeat split; [simpl; lia | simpl; lia | exact scenario_symmetric]|].
  apply (add_edge_links_both scenario 0 1);
    [simpl; lia | simpl; lia | exact scenario_symmetric].
Defined.

Lemma inner_plan_pairs users user_id ks t v :
  (t, v) ∈ fst (inner_plan users user_id ks) ->
  (v, t) ∈ fst (inner_plan users user_id ks) /\
  exists k, dict_get k users = Some t.
Proof.
  induction ks as [|k ks IH]; simpl; [intros H; inversion H|].
  destruct (dict_get user_id users) as [un|] eqn:Eu; [|intros H; inversion H].
  destruct (dict_get k users) as [on|] eqn:Ek; [|intros H; inversion H].
  simpl. rewrite !elem_of_app. intros [Hin|Hin].
  - destruct (negb (un =? on)%nat); [|inversion Hin].
    apply elem_of_cons in Hin as [[= -> ->]|Hin].
    + split; [left; right; left | eauto].
    + apply list_elem_of_singleton in Hin. injection Hin as -> ->.
      split; [left; left | eauto].
  - destruct (IH Hin) as [H1 H2]. split; [now right | exact H2].
Qed.

Lemma outer_plan_pairs users all_ids uks t v :
  (t, v) ∈ fst (outer_plan users all_ids uks) ->
  (v, t) ∈ fst (outer_plan users all_ids uks) /\
  exists k, dict_get k users = Some t.
Proof.
  induction uks as [|u uks IH]; simpl; [intros H; inversion H|].
  destruct (snd (inner_plan users u all_ids)); simpl.
  - rewrite !elem_of_app. intros [Hin|Hin].
    + destruct (inner_plan_pairs _ _ _ _ _ Hin) as [H1 H2]. split; [now left | exact H2].
    + destruct (IH Hin) as [H1 H2]. split; [now right | exact H2].
  - apply inner_plan_pairs.
Qed.

(** The store [add_all_edges] leaves behind. *)
Lemma add_all_edges_state w users :
  _user_nodes (self w) = Some users ->
  exists ops,
    state_of (add_all_edges w) = set_nodes_heap (apply_edits ops (nodes w)) w /\
    forall t v, (t, v) ∈ ops -> (v, t) ∈ ops /\ exists k, dict_get k users = Some t.
Proof.
  intros Hu.
  destruct users as [|[u r] users'] eqn:Eus.
  { exists []. split; [|intros t v H; inversion H].
    unfold add_all_edges, bind, attr_user_nodes. rewrite Hu. simpl.
    unfold set_nodes_heap. simpl. now rewrite world_eta. }
  destruct (_nodes (self w)) as [all|] eqn:Hn.
  - rewrite (add_all_edges_plan w _ all Hu Hn).
    eexists. split; [|apply outer_plan_pairs].
    unfold finish. destruct (snd _); reflexivity.
  - exists []. split; [|intros t v H; inversion H].
    unfold add_all_edges, bind, attr_user_nodes. rewrite Hu. simpl.
    unfold bind, attr_nodes. rewrite Hn. simpl.
    unfold set_nodes_heap. simpl. now rewrite world_eta.
Qed.

(** X9. [add_all_edges] keeps the neighbour lists symmetric, also when
    it stops with [KeyError] half way: every edge it creates is entered
    at both ends before the next lookup. *)
Theorem add_all_edges_keeps_symmetry (w : world) (users : dict) :
  _user_nodes (self w) = Some users ->
  anchors_liveb w users = true ->
  symmetric w ->
  symmetric (state_of (add_all_edges w)).
Proof.
  intros Hu Hlive Hsym.
  destruct (add_all_edges_state w users Hu) as (ops & -> & Hops).
  apply edits_keep_symmetry; [exact Hsym|].
  intros t v Hin. destruct (Hops t v Hin) as [Hvt [k Hk]]. split; [exact Hvt|].
  unfold anchors_liveb in Hlive. rewrite forallb_forall in Hlive.
  specialize (Hlive (k, t) (proj1 (list_elem_of_In _ _) (dict_get_elem _ _ _ Hk))).
  simpl in Hlive. now apply Nat.ltb_lt.
Qed.

Lemma add_all_edges_keeps_symmetry_witness :
  (_user_nodes (self two_of_three) = Some [(1, 0%nat); (2, 1%nat)] /\
   anchors_liveb two_of_three [(1, 0%nat); (2, 1%nat)] = true /\
   symmetric two_of_three) /\
  _nodes (self two_of_three) = Some [(1, 0%nat); (2, 1%nat); (3, 2%nat)] /\
  map neighbours (nodes two_of_three) = [[]; []; []] /\
  raised (add_all_edges two_of_three) = Some KeyError /\
  map neighbours (nodes (state_of (add_all_edges two_of_three)))
  = [[1]; [0]; []]%nat /\
  symmetric (state_of (add_all_edges two_of_three)).
Proof.
  assert (Hs : symmetric two_of_three).
  { intros [|[|[|a]]] b Hin; inversion Hin. }
  split; [repeat split; [exact Hs]|].
  split; [reflexivity|]. split; [reflexivity|].
  split; [reflexivity|]. split; [reflexivity|].
  apply (add_all_edges_keeps_symmetry two_of_three [(1, 0%nat); (2, 1%nat)]);
    [reflexivity | reflexivity | exact Hs].
Defined.

Lemma inner_plan_ok users user_id ks :
  dict_get user_id users <> None ->
  (snd (inner_plan users user_id ks) = true <->
   forall k, k ∈ ks -> dict_get k users <> None).
Proof.
  intros Hu. induction ks as [|k ks IH]; simpl.
  - split; [intros _ k H; inversion H | reflexivity].
  - destruct (dict_get user_id users) as [un|] eqn:Eu; [|contradiction].
    destruct (dict_get k users) as [on|] eqn:Ek; simpl.
    + rewrite IH. split.
      * intros H k' Hin. apply elem_of_cons in Hin as [->|Hin]; [congruence | auto].
      * intros H k' Hin. apply H. now right.
    + split; [discriminate|]. intros H. exfalso. apply (H k); [left | exact Ek].
Qed.

Lemma outer_plan_ok users all_ids uks :
  (forall u, u ∈ uks -> dict_get u users <> None) ->
  (snd (outer_plan users all_ids uks) = true <->
   uks = [] \/ forall k, k ∈ all_ids -> dict_get k users <> None).
Proof.
  induction uks as [|u uks IH]; intros Hu; simpl.
  - split; [now left | reflexivity].
  - pose proof (inner_plan_ok users u all_ids (Hu u (list_elem_of_here _ _))) as Hin.
    destruct (snd (inner_plan users u all_ids)) eqn:E; simpl.
    + rewrite IH by (intros u' Hu'; apply Hu; now right).
      split; [intros _; right; now apply Hin | intros _; right; now apply Hin].
    + split; [discriminate|]. intros [H|H]; [discriminate|].
      apply Hin in H. discriminate.
Qed.

(** X10. With both mappings present, [add_all_edges] returns normally
    exactly when the graph has no anchor or every id of [_nodes] is also
    an anchor id; in every other case it raises [KeyError]. *)
Theorem add_all_edges_completes_iff (w : world) (users all : dict) :
  _user_nodes (self w) = Some users ->
  _nodes (self w) = Some all ->
  (raised (add_all_edges w) = None <->
   users = [] \/ forall k, k ∈ dict_keys all -> dict_get k users <> None) /\
  (raised (add_all_edges w) = None \/ raised (add_all_edges w) = Some KeyError).
Proof.
  intros Hu Hn. rewrite (add_all_edges_plan w users all Hu Hn).
  assert (Hok : snd (outer_plan users (dict_keys all) (dict_keys users)) = true <->
                users = [] \/ forall k, k ∈ dict_keys all -> dict_get k users <> None).
  { rewrite outer_plan_ok.
    - split; (intros [H|H]; [left | now right]).
      + now destruct users.
      + now subst users.
    - intros u Hin. destruct (dict_get_in_keys u users Hin) as [r ->]. discriminate. }
  unfold finish. destruct (snd (outer_plan _ _ _)); simpl.
  - split; [|now left]. split; [intros _; now apply Hok | reflexivity].
  - split; [|now right]. split; [discriminate|].
    intros H. apply Hok in H. discriminate.
Qed.

Lemma add_all_edges_completes_iff_witness :
  (_user_nodes (self two_anchors) = Some [(1, 0%nat); (2, 1%nat)] /\
   _nodes (self two_anchors) = Some [(1, 0%nat); (2, 1%nat)]) /\
  raised (add_all_edges two_anchors) = None /\
  (raised (add_all_edges two_anchors) = None <->
   [(1, 0%nat); (2, 1%nat)] = ([] : dict) \/
   forall k, k ∈ dict_keys [(1, 0%nat); (2, 1%nat)] ->
             dict_get k [(1, 0%nat); (2, 1%nat)] <> None) /\
  (raised (add_all_edges two_anchors) = None \/
   raised (add_all_edges two_anchors) = Some KeyError).
Proof.
  split; [split; reflexivity|]. split; [reflexivity|].
  apply (add_all_edges_completes_iff two_anchors
           [(1, 0%nat); (2, 1%nat)] [(1, 0%nat); (2, 1%nat)]); reflexivity.
Defined.

(** X11. [add_all_edges] changes neighbour lists of anchors only: the
    game objects, the graph's attributes, the number of nodes and the
    game of every node are as before, and so is the neighbour list of
    every node that [_user_nodes] does not hold - whether the call
    returns or raises. *)
Theorem add_all_edges_reach (w : world) (users : dict) :
  _user_nodes (self w) = Some users ->
  let w' := state_of (add_all_edges w) in
  games w' = games w /\
  self w' = self w /\
  length (nodes w') = length (nodes w) /\
  (forall r, game (node_at w' r) = game (node_at w r)) /\
  (forall r, (forall k, dict_get k users <> Some r) ->
             neighbours (node_at w' r) = neighbours (node_at w r)).
Proof.
  intros Hu w'. unfold w'.
  destruct (add_all_edges_state w users Hu) as (ops & -> & Hops).
  split; [reflexivity|]. split; [reflexivity|].
  split; [apply apply_edits_length|]. split.
  - intros r. unfold node_at. simpl. clear Hops.
    generalize (nodes w). induction ops as [|[t v] ops IH]; intros h; [reflexivity|].
    change (apply_edits ((t, v) :: ops) h)
      with (apply_edits ops (alter (push_neighbour v) t h)).
    rewrite IH. destruct (decide (t = r)) as [->|Hne].
    + rewrite list_lookup_alter_eq. now destruct (h !! r).
    + now rewrite list_lookup_alter_ne.
  - intros r Hr. unfold node_at. simpl. rewrite neighbours_after_edits.
    destruct (decide _); [|now rewrite app_nil_r].
    destruct (appended ops r) as [|x xs] eqn:E; [now rewrite app_nil_r|].
    exfalso. assert (Hx : x ∈ appended ops r) by (rewrite E; left).
    apply appended_spec in Hx. destruct (Hops r x Hx) as [_ [k Hk]].
    now apply (Hr k).
Qed.

Lemma add_all_edges_reach_witness :
  _user_nodes (self two_of_three) = Some [(1, 0%nat); (2, 1%nat)] /\
  _nodes (self two_of_three) = Some [(1, 0%nat); (2, 1%nat); (3, 2%nat)] /\
  raised (add_all_edges two_of_three) = Some KeyError /\
  map neighbours (nodes (state_of (add_all_edges two_of_three)))
  = [[1]; [0]; []]%nat /\
  neighbours (node_at (state_of (add_all_edges two_of_three)) 2)
  = neighbours (node_at two_of_three 2) /\
  (games (state_of (add_all_edges two_of_three)) = games two_of_three /\
   self (state_of (add_all_edges two_of_three)) = self two_of_three /\
   length (nodes (state_of (add_all_edges two_of_three))) = length (nodes two_of_three) /\
   (forall r, game (node_at (state_of (add_all_edges two_of_three)) r)
              = game (node_at two_of_three r)) /\
   (forall r, (forall k, dict_get k [(1, 0%nat); (2, 1%nat)] <> Some r) ->
              neighbours (node_at (state_of (add_all_edges two_of_three)) r)
              = neighbours (node_at two_of_three r))).
Proof.
  pose proof (add_all_edges_reach two_of_three [(1, 0%nat); (2, 1%nat)] eq_refl) as H.
  split; [reflexivity|]. split; [reflexivity|].
  split; [reflexivity|]. split; [reflexivity|].
  split; [|exact H].
  destruct H as (_ & _ & _ & _ & H). apply (H 2%nat).
  intros k Hk. cbn [dict_get] in Hk.
  destruct (1 =? k); [discriminate Hk|]. destruct (2 =? k); discriminate Hk.
Defined.

(** ** The scoring pass, case by case *)

(** X12. [assign_all_scores] never changes the store, and it returns
    normally exactly when the graph has no node: then there is nothing
    to score. *)
Theorem assign_all_scores_outcome (dbg : bool) (w : world) (d : dict) :
  _nodes (self w) = Some d ->
  state_of (assign_all_scores dbg w) = w /\
  (raised (assign_all_scores dbg w) = None <-> d = []).
Proof.
  intros Hd. destruct d as [|[k r] d'].
  - unfold assign_all_scores, bind, attr_nodes. rewrite Hd. simpl.
    split; [reflexivity | split; reflexivity].
  - destruct (assign_all_scores_raises dbg w k r d' Hd) as [e ->]. simpl.
    split; [reflexivity | split; discriminate].
Qed.

Lemma assign_all_scores_outcome_witness :
  _nodes (self empty_catalog) = Some [] /\
  assign_all_scores true empty_catalog = Ok tt empty_catalog /\
  state_of (assign_all_scores true empty_catalog) = empty_catalog /\
  (raised (assign_all_scores true empty_catalog) = None <-> ([] : dict) = []).
Proof.
  split; [reflexivity|]. split; [reflexivity|].
  apply (assign_all_scores_outcome true empty_catalog []). reflexivity.
Defined.

Lemma user_genres_ok w users :
  _user_nodes (self w) = Some users -> NoDup (dict_keys users) ->
  exists l, user_genres w = Ok l w.
Proof.
  intros Hu Hnd. unfold user_genres, bind, read_self.
  destruct (user_game_genres (self w)); simpl; [|eexists; reflexivity].
  unfold attr_user_nodes. rewrite Hu.
  rewrite (for_fold_pure w users _ (genres_step w)); [eexists; reflexivity|].
  intros acc [k r] Hin. simpl fst.
  rewrite (user_node_of_id_member w users k r Hu Hnd Hin). reflexivity.
Qed.

(** X13. With assertions off ([python -O]), and for integers that
    [float] represents exactly (ratios and list lengths up to [2^53],
    which the ratios 0..100 of the representation invariant are),
    [compute_score] raises [ZeroDivisionError] when the highest ratio is
    0, the highest price is 0.0 or there is no anchor, and in every
    other case [TypeError], from [genre_count]; it raises nothing else
    and returns never. *)
Theorem compute_score_optimized (w : world) (all users : dict) (n : nat) :
  _nodes (self w) = Some all ->
  NoDup (dict_keys all) ->
  _user_nodes (self w) = Some users ->
  NoDup (dict_keys users) ->
  exact_operands w all users n = true ->
  exists mp mr,
    max_price w = Ok mp w /\
    max_positive_ratio w = Ok mr w /\
    compute_score false n w
    = Raise (if (mr =? 0) || PrimFloat.eqb mp 0 || is_nil users
             then ZeroDivisionError else TypeError) w.
Proof.
  intros Hn Hnd Hu Hndu _.
  exists (fold_left (price_step w) all 0%float), (fold_left (ratio_step w) all 0).
  pose proof (max_price_fold w all Hn Hnd) as Hmp.
  pose proof (max_positive_ratio_fold w all Hn Hnd) as Hmr.
  split; [exact Hmp|]. split; [exact Hmr|].
  unfold compute_score.
  rewrite (bind_ok _ _ tt w w) by reflexivity.
  destruct (user_genres_ok w users Hu Hndu) as [ug Hug].
  rewrite (bind_ok _ _ _ _ _ Hug).
  rewrite (bind_ok _ _ (node_at w n) w w) by reflexivity.
  rewrite (bind_ok _ _ _ _ _ Hmp), (bind_ok _ _ _ _ _ Hmr).
  rewrite (bind_ok _ _ (game_at w (game (node_at w n))) w w) by reflexivity.
  unfold int_truediv at 1. destruct (_ =? 0); [reflexivity|].
  rewrite (bind_ok _ _ _ w w) by reflexivity.
  unfold float_truediv. destruct (PrimFloat.eqb _ 0); [reflexivity|].
  repeat (rewrite (bind_ok _ _ _ w w) by reflexivity).
  assert (Ha : attr_user_nodes w = Ok users w) by (unfold attr_user_nodes; now rewrite Hu).
  rewrite (bind_ok _ _ _ _ _ Ha).
  rewrite (bind_ok _ _ (Z.of_nat (length users)) w w) by reflexivity.
  unfold int_truediv at 1. destruct users as [|kr users']; [reflexivity|].
  replace (Z.of_nat (length (kr :: users')) =? 0) with false
    by (symmetry; apply Z.eqb_neq; simpl; lia).
  rewrite (bind_ok _ _ _ w w) by reflexivity.
  reflexivity.
Qed.

Lemma compute_score_optimized_witness :
  (_nodes (self scenario) = Some [(1, 0%nat); (2, 1%nat)] /\
   NoDup (dict_keys [(1, 0%nat); (2, 1%nat)]) /\
   _user_nodes (self scenario) = Some [(1, 0%nat)] /\
   NoDup (dict_keys [(1, 0%nat)]) /\
   exact_operands scenario [(1, 0%nat); (2, 1%nat)] [(1, 0%nat)] 0 = true) /\
  compute_score false 0 scenario = Raise TypeError scenario /\
  exists mp mr,
    max_price scenario = Ok mp scenario /\
    max_positive_ratio scenario = Ok mr scenario /\
    compute_score false 0 scenario
    = Raise (if (mr =? 0) || PrimFloat.eqb mp 0 || is_nil [(1, 0%nat)]
             then ZeroDivisionError else TypeError) scenario.
Proof.
  assert (Hk : NoDup (dict_keys [(1, 0%nat); (2, 1%nat)])) by compute_done.
  assert (Hu : NoDup (dict_keys [(1, 0%nat)])) by compute_done.
  split; [repeat split; try assumption; reflexivity|]. split; [reflexivity|].
  apply (compute_score_optimized scenario [(1, 0%nat); (2, 1%nat)] [(1, 0%nat)] 0);
    try reflexivity; assumption.
Defined.

(** ** [highest_scoring_game], whatever the ratings *)

Lemma highest_fold_unrated w l : forall acc,
  forallb (ratedb w) l = false ->
  for_fold l highest_step acc w = Raise AttributeError w.
Proof.
  induction l as [|x l IH]; intros acc H; [discriminate|].
  simpl in H. simpl for_fold. unfold ratedb in H at 1.
  destruct (rate w x) as [r|] eqn:Er.
  - rewrite (bind_ok _ _ _ _ _ (highest_step_rate w acc x r Er)). now apply IH.
  - apply bind_raise. unfold highest_step. apply bind_raise.
    now rewrite attr_rating_rate, Er.
Qed.

Lemma highest_fold_rated w l : forall hs gs,
  PrimFloat.leb 0 hs = true ->
  forallb (ratedb w) l = true ->
  exists hs' gs',
    for_fold l highest_step (hs, gs) w = Ok (hs', gs') w /\
    PrimFloat.leb 0 hs' = true /\
    ((gs' = gs /\ forall x r, x ∈ l -> rate w x = Some r -> PrimFloat.leb hs r = false)
     \/ exists g r, gs' = Some g /\ g ∈ l /\ rate w g = Some r /\ PrimFloat.leb 0 r = true).
Proof.
  induction l as [|x l IH]; intros hs gs Hhs H.
  - exists hs, gs. split; [reflexivity|]. split; [exact Hhs|]. left.
    split; [reflexivity|]. intros y r Hy. inversion Hy.
  - simpl in H. apply andb_prop in H as [Hx Hl]. unfold ratedb in Hx.
    destruct (rate w x) as [r|] eqn:Er; [|discriminate].
    simpl for_fold. rewrite (bind_ok _ _ _ _ _ (highest_step_rate w (hs, gs) x r Er)).
    simpl fst. destruct (PrimFloat.leb hs r) eqn:E.
    + assert (Hr : PrimFloat.leb 0 r = true) by (eapply leb_trans; eassumption).
      destruct (IH r (Some x) Hr Hl) as (hs' & gs' & Hf & Hpos & Hres).
      exists hs', gs'. split; [exact Hf|]. split; [exact Hpos|]. right.
      destruct Hres as [[-> _]|(g & rg & -> & Hg & Hrg & Hp)].
      * exists x, r. repeat split; auto. left.
      * exists g, rg. repeat split; auto. now right.
    + destruct (IH hs gs Hhs Hl) as (hs' & gs' & Hf & Hpos & Hres).
      exists hs', gs'. split; [exact Hf|]. split; [exact Hpos|].
      destruct Hres as [[-> Hlow]|(g & rg & -> & Hg & Hrg & Hp)].
      * left. split; [reflexivity|]. intros y ry Hy Hry.
        apply elem_of_cons in Hy as [->|Hy]; [|eauto].
        rewrite Er in Hry. now injection Hry as <-.
      * right. exists g, rg. repeat split; auto. now right.
Qed.

(** X14. [highest_scoring_game] raises [AttributeError] when a member of
    the set has no rating.  Otherwise it returns [None] exactly when no
    member is rated 0 or higher (so for the empty set, and for ratings
    that are all negative or NaN), and else a member of the set whose
    rating is at least 0. *)
Theorem highest_scoring_game_result (w : world) (game_list : list obj) :
  (forallb (ratedb w) game_list = false ->
   highest_scoring_game game_list w = Raise AttributeError w) /\
  (forallb (ratedb w) game_list = true ->
   exists res,
     highest_scoring_game game_list w = Ok res w /\
     (res = None <->
      forall x r, x ∈ game_list -> rate w x = Some r -> PrimFloat.leb 0 r = false) /\
     (forall g, res = Some g ->
        g ∈ game_list /\ exists r, rate w g = Some r /\ PrimFloat.leb 0 r = true)).
Proof.
  unfold highest_scoring_game. split; intros H.
  - apply bind_raise. now apply highest_fold_unrated.
  - destruct (highest_fold_rated w game_list 0%float None eq_refl H)
      as (hs' & gs' & Hf & _ & Hres).
    exists gs'. rewrite (bind_ok _ _ _ _ _ Hf). split; [reflexivity|].
    destruct Hres as [[-> Hlow]|(g & r & -> & Hg & Hr & Hp)].
    + split; [split; [intros _; exact Hlow | reflexivity] | discriminate].
    + split.
      * split; [discriminate|]. intros Hlow. rewrite (Hlow g r Hg Hr) in Hp. discriminate.
      * intros g' [= <-]. split; [exact Hg | eauto].
Qed.

(** ** [sort_games] sorts *)

Lemma at_least_trans w a b c : at_least w a b -> at_least w b c -> at_least w a c.
Proof.
  intros (ra & rb & Ha & Hb & H1) (rb' & rc & Hb' & Hc & H2).
  rewrite Hb in Hb'. injection Hb' as <-.
  exists ra, rc. repeat split; auto. eapply leb_trans; eassumption.
Qed.

Lemma ordered_app w l1 l2 :
  ordered w (l1 ++ l2) <->
  ordered w l1 /\ ordered w l2 /\ forall x y, x ∈ l1 -> y ∈ l2 -> at_least w x y.
Proof.
  induction l1 as [|a l1 IH]; simpl.
  - split; [intros H; repeat split; auto; intros x y Hx; inversion Hx | tauto].
  - rewrite IH, Forall_app, !Forall_forall. split.
    + intros [[H1 H2] (H3 & H4 & H5)]. repeat split; auto.
      intros x y Hx Hy. apply elem_of_cons in Hx as [->|Hx]; auto.
    + intros ([H1 H2] & H3 & H4). repeat split; auto.
      * intros y Hy. apply H4; [left | exact Hy].
      * intros x y Hx Hy. apply H4; [now right | exact Hy].
Qed.

Lemma ordered_lookup w l : forall i j a b,
  ordered w l -> l !! i = Some a -> l !! j = Some b -> (i < j)%nat -> at_least w a b.
Proof.
  induction l as [|x l IH]; intros i j a b Hord Ha Hb Hij; [discriminate|].
  destruct Hord as [Hx Hord]. destruct j as [|j]; [lia|]. simpl in Hb.
  destruct i as [|i]; simpl in Ha.
  - injection Ha as ->. rewrite Forall_forall in Hx.
    apply Hx. eapply list_elem_of_lookup_2, Hb.
  - apply (IH i j); auto. lia.
Qed.

Lemma swap_cons i j q l : swap (S i) (S j) (q :: l) = q :: swap i j l.
Proof. unfold swap. simpl. destruct (l !! i), (l !! j); reflexivity. Qed.

Lemma swap_adjacent Q a b T :
  swap (length Q) (length Q + 1) (Q ++ a :: b :: T) = Q ++ b :: a :: T /\
  swap (length Q + 1) (length Q) (Q ++ a :: b :: T) = Q ++ b :: a :: T.
Proof.
  induction Q as [|q Q [IH1 IH2]]; [split; reflexivity|].
  simpl. rewrite !swap_cons, IH1, IH2. split; reflexivity.
Qed.

Lemma sort_inner_step w l j x y rx ry :
  l !! j = Some x -> l !! (j - 1)%nat = Some y ->
  rate w x = Some rx -> rate w y = Some ry ->
  sort_inner l j w = Ok (if PrimFloat.ltb ry rx then swap j (j - 1) l else l) w.
Proof.
  intros Hx Hy Hrx Hry. unfold sort_inner, bind, item. rewrite Hx. simpl.
  rewrite attr_rating_rate, Hrx, Hy. simpl. rewrite attr_rating_rate, Hry.
  destruct (PrimFloat.ltb ry rx); reflexivity.
Qed.

(** The inner loop changes nothing in a prefix that is in order. *)
Lemma sort_inner_noop w P T :
  ordered w P ->
  forall idxs, (forall j, j ∈ idxs -> (1 <= j < length P)%nat) ->
  for_fold idxs sort_inner (P ++ T) w = Ok (P ++ T) w.
Proof.
  intros Hord. induction idxs as [|j idxs IH]; intros Hidx; [reflexivity|].
  simpl. destruct (Hidx j (list_elem_of_here _ _)) as [Hj1 Hj2].
  destruct (lookup_lt_is_Some_2 P j) as [x Hx]; [lia|].
  destruct (lookup_lt_is_Some_2 P (j - 1)) as [y Hy]; [lia|].
  destruct (ordered_lookup w P (j - 1) j y x Hord Hy Hx) as (ry & rx & Hry & Hrx & Hle);
    [lia|].
  rewrite (bind_ok _ _ (P ++ T) w w).
  - apply IH. intros j' Hj'. apply Hidx. now right.
  - rewrite (sort_inner_step w (P ++ T) j x y rx ry); auto.
    + now rewrite (leb_not_ltb ry rx Hle).
    + rewrite lookup_app_l by lia. exact Hx.
    + rewrite lookup_app_l by lia. exact Hy.
Qed.

(** The inner loop carries the new member [b] down to its place. *)
Lemma sort_inner_bubble w b : numbered w b -> forall Q,
  ordered w Q -> Forall (numbered w) Q -> forall T,
  exists Q1 Q2,
    Q = Q1 ++ Q2 /\
    for_fold (rev (seq 1 (length Q))) sort_inner (Q ++ b :: T) w
    = Ok (Q1 ++ b :: Q2 ++ T) w /\
    Forall (fun x => at_least w x b) Q1 /\
    Forall (at_least w b) Q2.
Proof.
  intros (rb & Hrb & Hnb). induction Q as [|q Q0 IH] using rev_ind; intros Hord Hnum T.
  - exists [], []. repeat split; constructor.
  - apply ordered_app in Hord as (Hord0 & _ & Hq).
    apply Forall_app in Hnum as [Hnum0 Hnq].
    apply Forall_cons in Hnq as [(rq & Hrq & Hnq) _].
    rewrite length_app. simpl length. rewrite Nat.add_1_r, seq_S, rev_app_distr.
    simpl rev. simpl app at 1. simpl for_fold. rewrite <- app_assoc. simpl app at 1.
    assert (Hx : (Q0 ++ q :: b :: T) !! (1 + length Q0)%nat = Some b).
    { rewrite lookup_app_r by lia.
      replace (1 + length Q0 - length Q0)%nat with 1%nat by lia. reflexivity. }
    assert (Hy : (Q0 ++ q :: b :: T) !! (1 + length Q0 - 1)%nat = Some q).
    { replace (1 + length Q0 - 1)%nat with (length Q0) by lia.
      now rewrite list_lookup_middle. }
    rewrite (bind_ok _ _ _ _ _
               (sort_inner_step w _ _ b q rb rq Hx Hy Hrb Hrq)).
    destruct (PrimFloat.ltb rq rb) eqn:E.
    + replace (1 + length Q0 - 1)%nat with (length Q0) by lia.
      replace (1 + length Q0)%nat with (length Q0 + 1)%nat by lia.
      rewrite (proj2 (swap_adjacent Q0 q b T)).
      destruct (IH Hord0 Hnum0 (q :: T)) as (Q1 & Q2 & -> & Hf & H1 & H2).
      exists Q1, (Q2 ++ [q]). split; [now rewrite app_assoc|].
      split; [rewrite Hf; now rewrite <- app_assoc|]. split; [exact H1|].
      apply Forall_app. split; [exact H2|]. constructor; [|constructor].
      exists rb, rq. repeat split; auto. now apply ltb_leb.
    + assert (Hqb : at_least w q b).
      { exists rq, rb. repeat split; auto. now apply not_ltb_leb. }
      exists (Q0 ++ [q]), []. split; [now rewrite app_nil_r|]. split.
      * rewrite <- app_assoc. simpl app.
        replace (Q0 ++ q :: b :: T) with ((Q0 ++ [q]) ++ b :: T)
          by (now rewrite <- app_assoc).
        apply sort_inner_noop.
        -- apply ordered_app. repeat split; auto; constructor.
        -- intros j Hj. apply list_elem_of_In, in_rev, list_elem_of_In, elem_of_seq in Hj.
           rewrite length_app. simpl. lia.
      * split; [|constructor]. apply Forall_app. split; [|now repeat constructor].
        apply Forall_forall. intros x Hx0. eapply at_least_trans; [|exact Hqb].
        apply Hq; [exact Hx0 | left].
Qed.

(** One round of the outer loop puts the next member into the prefix. *)
Lemma sort_outer_inserts w Q a b S' :
  ordered w (Q ++ [a]) -> Forall (numbered w) (Q ++ [a]) -> numbered w b ->
  exists P',
    sort_outer ((Q ++ [a]) ++ b :: S') (length Q) w = Ok (P' ++ S') w /\
    ordered w P' /\ P' ≡ₚ (Q ++ [a]) ++ [b].
Proof.
  intros Hord Hnum Hb.
  pose proof Hb as (rb & Hrb & Hnb).
  pose proof Hnum as Hnum'. apply Forall_app in Hnum' as [HnQ Hna].
  apply Forall_cons in Hna as [(ra & Hra & Hna) _].
  rewrite <- app_assoc. simpl app.
  unfold sort_outer, bind, item.
  rewrite list_lookup_middle by reflexivity. simpl.
  rewrite attr_rating_rate, Hra.
  replace ((Q ++ a :: b :: S') !! (length Q + 1)%nat) with (Some b).
  2:{ rewrite lookup_app_r by lia.
      replace (length Q + 1 - length Q)%nat with 1%nat by lia. reflexivity. }
  simpl. rewrite attr_rating_rate, Hrb.
  destruct (PrimFloat.ltb ra rb) eqn:E.
  - rewrite (proj1 (swap_adjacent Q a b S')).
    apply ordered_app in Hord as (HordQ & _ & HQa).
    destruct (sort_inner_bubble w b Hb Q HordQ HnQ (a :: S'))
      as (Q1 & Q2 & -> & Hf & H1 & H2).
    rewrite Hf. exists (Q1 ++ b :: Q2 ++ [a]). split.
    + f_equal. rewrite <- !app_assoc. simpl. now rewrite <- app_assoc.
    + apply ordered_app in HordQ as (Ho1 & Ho2 & H12).
      assert (Hba : at_least w b a).
      { exists rb, ra. repeat split; auto. now apply ltb_leb. }
      split.
      * apply ordered_app. split; [exact Ho1|]. split.
        -- simpl. split.
           ++ apply Forall_app. split; [exact H2 | now repeat constructor].
           ++ apply ordered_app. split; [exact Ho2|].
              split; [simpl; split; constructor|].
              intros x y Hx Hy. apply list_elem_of_singleton in Hy. subst y.
              apply HQa; [apply elem_of_app; now right | left].
        -- intros x y Hx Hy. rewrite Forall_forall in H1.
           apply elem_of_cons in Hy as [->|Hy]; [now apply H1|].
           apply elem_of_app in Hy as [Hy|Hy]; [now apply H12|].
           apply list_elem_of_singleton in Hy. subst y.
           apply HQa; [apply elem_of_app; now left | left].
      * rewrite <- !app_assoc. apply Permutation_app_head. simpl.
        rewrite (Permutation_app_comm Q2 (a :: [b])). simpl.
        rewrite (Permutation_app_comm Q2 [a]). simpl.
        rewrite (Permutation_swap a b Q2). reflexivity.
  - exists ((Q ++ [a]) ++ [b]). split.
    + unfold ret. f_equal. rewrite <- !app_assoc. reflexivity.
    + split; [|reflexivity]. apply ordered_app. split; [exact Hord|].
      split; [simpl; split; constructor|].
      intros x y Hx Hy. apply list_elem_of_singleton in Hy. subst y.
      assert (Hab : at_least w a b).
      { exists ra, rb. repeat split; auto. now apply not_ltb_leb. }
      apply elem_of_app in Hx as [Hx|Hx].
      * eapply at_least_trans; [|exact Hab].
        apply ordered_app in Hord as (_ & _ & HQa). apply HQa; [exact Hx | left].
      * apply list_elem_of_singleton in Hx. now subst x.
Qed.

Lemma sort_outer_loop w : forall S P,
  P <> [] -> ordered w P -> Forall (numbered w) (P ++ S) ->
  exists L,
    for_fold (seq (length P - 1) (length S)) sort_outer (P ++ S) w = Ok L w /\
    ordered w L /\ L ≡ₚ P ++ S.
Proof.
  induction S as [|b S' IH]; intros P Hne Hord Hnum.
  - exists P. rewrite app_nil_r. repeat split; auto.
  - destruct (exists_last Hne) as (Q & a & ->).
    apply Forall_app in Hnum as [HnP HnS]. apply Forall_cons in HnS as [Hb HnS'].
    destruct (sort_outer_inserts w Q a b S' Hord HnP Hb) as (P' & Hstep & Hord' & Hperm).
    rewrite length_app. simpl length.
    replace (length Q + 1 - 1)%nat with (length Q) by lia.
    simpl for_fold. rewrite (bind_ok _ _ _ _ _ Hstep).
    assert (Hlen : length P' = S (S (length Q))).
    { rewrite Hperm, !length_app. simpl. lia. }
    destruct (IH P') as (L & Hf & HordL & HpermL).
    + intros ->. discriminate.
    + exact Hord'.
    + apply Forall_app. split; [|exact HnS'].
      rewrite Hperm. apply Forall_app. split; [exact HnP | now repeat constructor].
    + rewrite Hlen in Hf.
      replace (S (S (length Q)) - 1)%nat with (S (length Q)) in Hf by lia.
      exists L. split; [exact Hf|]. split; [exact HordL|].
      rewrite HpermL, Hperm, <- !app_assoc. reflexivity.
Qed.

Lemma Forall_numberedb w l : forallb (numberedb w) l = true -> Forall (numbered w) l.
Proof.
  intros H. apply Forall_forall. intros x Hx.
  rewrite forallb_forall in H. specialize (H x (proj1 (list_elem_of_In _ _) Hx)).
  unfold numberedb in H. unfold numbered, number.
  destruct (rate w x) as [r|]; [|discriminate].
  exists r. split; [reflexivity|]. now apply negb_true_iff.
Qed.

(** X15. [sort_games] sorts: for games whose ratings are numbers, the
    result holds the same games, each as often as before, in descending
    order of rating. *)
Theorem sort_games_sorts (w : world) (games : list obj) :
  forallb (numberedb w) games = true ->
  exists sorted,
    sort_games games w = Ok sorted w /\
    sorted ≡ₚ games /\
    descending w sorted.
Proof.
  intros H. apply Forall_numberedb in H.
  destruct games as [|a S'].
  - exists []. repeat split; [reflexivity|]. intros i a b Ha. discriminate.
  - destruct (sort_outer_loop w S' [a]) as (L & Hf & Hord & Hperm);
      [discriminate | simpl; auto | exact H |].
    exists L. unfold sort_games.
    replace (length (a :: S') - 1)%nat with (length S') by (simpl; lia).
    split; [exact Hf|]. split; [exact Hperm|].
    intros i x y Hx Hy. apply (ordered_lookup w L i (i + 1) x y Hord Hx Hy). lia.
Qed.

Lemma sort_games_sorts_witness :
  forallb (numberedb rated_catalog) [OGame 0; OGame 1; OGame 2] = true /\
  sort_games [OGame 0; OGame 1; OGame 2] rated_catalog
  = Ok [OGame 1; OGame 0; OGame 2] rated_catalog /\
  exists sorted,
    sort_games [OGame 0; OGame 1; OGame 2] rated_catalog = Ok sorted rated_catalog /\
    sorted ≡ₚ [OGame 0; OGame 1; OGame 2] /\
    descending rated_catalog sorted.
Proof.
  split; [reflexivity|]. split; [reflexivity|].
  apply (sort_games_sorts rated_catalog [OGame 0; OGame 1; OGame 2]). reflexivity.
Defined.

(** ** [top_games] and [highest_scoring_games] outside the contract *)

Lemma top_games_loop_exhausts w total : forall fuel possible actual,
  NoDup possible -> Forall (scored w) possible ->
  (length possible < fuel)%nat ->
  total < Z.of_nat (length actual) \/ Z.of_nat (length actual + length possible) <= total ->
  top_games_loop fuel total possible actual w = Raise KeyError w.
Proof.
  induction fuel as [|fuel IH]; intros possible actual Hnd Hall Hfuel Htot; [lia|].
  destruct possible as [|x possible'] eqn:Ep.
  - simpl. rewrite orb_true_r. reflexivity.
  - rewrite <- Ep in *.
    assert (Hlen : (0 < length possible)%nat) by (rewrite Ep; simpl; lia).
    simpl. replace (Z.of_nat (length actual) =? total) with false
      by (symmetry; apply Z.eqb_neq; lia).
    simpl.
    assert (Hne : possible <> []) by (rewrite Ep; discriminate).
    destruct (highest_scoring_game_last_max w possible Hne Hall)
      as (l1 & g & l2 & Hsplit & Hg & _ & _).
    rewrite (bind_ok _ _ _ _ _ Hg). rewrite Hsplit in *.
    apply NoDup_app in Hnd as (H1 & H12 & H2). apply NoDup_cons in H2 as [Hg2 H2].
    assert (Hg1 : g ∉ l1) by (intros Hin; apply (H12 g Hin); left).
    assert (Hrm : set_remove (Some g) (l1 ++ g :: l2) w = Ok (g, l1 ++ l2) w).
    { unfold set_remove, obj_in. rewrite bool_decide_eq_true_2.
      - now rewrite discard_middle.
      - apply elem_of_app. right. left. }
    rewrite (bind_ok _ _ _ _ _ Hrm). simpl fst. simpl snd.
    rewrite length_app in *. simpl in *.
    apply IH.
    + apply NoDup_app. repeat split; auto.
      intros y Hy Hy2. apply (H12 y Hy). now right.
    + apply Forall_app in Hall as [Ha Hb]. apply Forall_cons in Hb as [_ Hb].
      apply Forall_app. split; assumption.
    + rewrite length_app. lia.
    + rewrite !length_app. simpl. lia.
Qed.

(** X16. Asked for as many games as the graph holds, or for more, or for
    a negative number, [top_games] raises [KeyError]: it goes on after
    the last candidate is taken and removes [None] from the empty set. *)
Theorem top_games_exhausted (set_iter : list obj -> list obj) (w : world)
    (all : dict) (total : Z) :
  (forall l, set_iter l ≡ₚ remove_dups l) ->
  _nodes (self w) = Some all ->
  NoDup (dict_keys all) ->
  forallb (scoredb w) (set_iter (games_of w all)) = true ->
  total < 0 \/ Z.of_nat (length (set_iter (games_of w all))) <= total ->
  top_games set_iter total w = Raise KeyError w.
Proof.
  intros Hset Hn Hkeys Hsc Htot. unfold top_games.
  assert (Ha : attr_nodes w = Ok all w) by (unfold attr_nodes; now rewrite Hn).
  rewrite (bind_ok _ _ _ _ _ Ha).
  rewrite (bind_ok _ _ _ _ _ (catalog_adds w all Hn Hkeys)).
  apply bind_raise. apply top_games_loop_exhausts.
  - rewrite (Hset _). apply NoDup_remove_dups.
  - now apply Forall_scoredb.
  - lia.
  - simpl. lia.
Qed.

Lemma top_games_exhausted_witness :
  ((forall l : list obj, remove_dups l ≡ₚ remove_dups l) /\
   _nodes (self rated_catalog) = Some [(1, 0%nat); (2, 1%nat); (3, 2%nat)] /\
   NoDup (dict_keys [(1, 0%nat); (2, 1%nat); (3, 2%nat)]) /\
   forallb (scoredb rated_catalog)
     (remove_dups (games_of rated_catalog [(1, 0%nat); (2, 1%nat); (3, 2%nat)])) = true /\
   (3 < 0 \/
    Z.of_nat (length (remove_dups
       (games_of rated_catalog [(1, 0%nat); (2, 1%nat); (3, 2%nat)]))) <= 3)) /\
  top_games remove_dups 3 rated_catalog = Raise KeyError rated_catalog.
Proof.
  assert (Hk : NoDup (dict_keys [(1, 0%nat); (2, 1%nat); (3, 2%nat)])) by compute_done.
  split.
  - repeat split; try reflexivity; try exact Hk. right. simpl. lia.
  - apply (top_games_exhausted remove_dups rated_catalog
             [(1, 0%nat); (2, 1%nat); (3, 2%nat)] 3);
      try reflexivity; try exact Hk. right. simpl. lia.
Defined.

Lemma pool_inner w nbs : forall adds,
  (forall i, ONode i ∉ adds) ->
  for_fold nbs pool_step adds w
  = Ok (adds ++ map (fun nb => OGame (game (node_at w nb))) nbs) w /\
  (forall i, ONode i ∉ adds ++ map (fun nb => OGame (game (node_at w nb))) nbs).
Proof.
  induction nbs as [|nb nbs IH]; intros adds Hadds; simpl.
  - rewrite app_nil_r. split; [reflexivity | exact Hadds].
  - assert (Hnew : forall i, ONode i ∉ adds ++ [OGame (game (node_at w nb))]).
    { intros i Hin. apply elem_of_app in Hin as [Hin|Hin]; [now apply (Hadds i)|].
      apply list_elem_of_singleton in Hin. discriminate. }
    unfold pool_step at 1. unfold obj_in.
    rewrite bool_decide_eq_false_2 by apply Hadds. simpl.
    unfold bind at 1. unfold bind at 1. unfold read_node, ret at 1.
    destruct (IH _ Hnew) as [Hf Hinv]. rewrite Hf, <- !app_assoc. simpl.
    split; [reflexivity|]. now rewrite <- app_assoc in Hinv.
Qed.

Lemma pool_adds w users :
  _user_nodes (self w) = Some users -> NoDup (dict_keys users) ->
  for_fold (dict_keys users)
    (fun adds game_id =>
       node <- user_node_of_id game_id ;; for_fold (neighbours node) pool_step adds)
    [] w
  = Ok (pool_of w users) w.
Proof.
  intros Hu Hnd.
  assert (H : forall d adds, (forall kr, kr ∈ d -> kr ∈ users) ->
    (forall i, ONode i ∉ adds) ->
    for_fold (dict_keys d)
      (fun adds game_id =>
         node <- user_node_of_id game_id ;; for_fold (neighbours node) pool_step adds)
      adds w
    = Ok (adds ++ pool_of w d) w).
  { induction d as [|[k r] d IH]; intros adds Hsub Hadds; simpl.
    - now rewrite app_nil_r.
    - unfold bind at 1. unfold bind at 1.
      rewrite (user_node_of_id_member w users k r Hu Hnd (Hsub _ (list_elem_of_here _ _))).
      destruct (pool_inner w (neighbours (node_at w r)) adds Hadds) as [Hf Hinv].
      rewrite Hf. rewrite IH; [now rewrite <- app_assoc | | exact Hinv].
      intros kr Hin. apply Hsub. now right. }
  apply (H users []); [auto|]. intros i Hin. inversion Hin.
Qed.

Lemma neighbour_loop_all w total : forall fuel possible actual,
  NoDup possible -> Forall (scored w) possible ->
  (length possible < fuel)%nat ->
  (Z.of_nat (length actual + length possible) = total ->
   neighbour_loop fuel total possible actual w = Raise KeyError w) /\
  (Z.of_nat (length actual + length possible) <> total ->
   exists picks,
     neighbour_loop fuel total possible actual w = Ok (actual ++ picks) w /\
     length picks = length possible /\ selected w possible picks).
Proof.
  induction fuel as [|fuel IH]; intros possible actual Hnd Hall Hfuel; [lia|].
  destruct possible as [|x possible'] eqn:Ep.
  - simpl. rewrite Nat.add_0_r. split; intros Htot.
    + replace (Z.of_nat (length actual) =? total) with true
        by (symmetry; apply Z.eqb_eq; lia).
      reflexivity.
    + replace (Z.of_nat (length actual) =? total) with false
        by (symmetry; apply Z.eqb_neq; lia).
      exists []. rewrite app_nil_r. repeat split. constructor.
  - rewrite <- Ep in *.
    assert (Hne : possible <> []) by (rewrite Ep; discriminate).
    assert (Hcond : negb (is_nil possible) = true) by (now rewrite Ep).
    simpl. rewrite Hcond. simpl.
    destruct (highest_scoring_game_last_max w possible Hne Hall)
      as (l1 & g & l2 & Hsplit & Hg & Hmax & Hlast).
    rewrite (bind_ok _ _ _ _ _ Hg). rewrite Hsplit in *.
    apply NoDup_app in Hnd as (H1 & H12 & H2). apply NoDup_cons in H2 as [Hg2 H2].
    assert (Hg1 : g ∉ l1) by (intros Hin; apply (H12 g Hin); left).
    assert (Hrm : set_remove (Some g) (l1 ++ g :: l2) w = Ok (g, l1 ++ l2) w).
    { unfold set_remove, obj_in. rewrite bool_decide_eq_true_2.
      - now rewrite discard_middle.
      - apply elem_of_app. right. left. }
    rewrite (bind_ok _ _ _ _ _ Hrm). simpl fst. simpl snd.
    destruct (IH (l1 ++ l2) (actual ++ [g])) as [IHr IHo].
    + apply NoDup_app. repeat split; auto.
      intros y Hy Hy2. apply (H12 y Hy). now right.
    + apply Forall_app in Hall as [Ha Hb]. apply Forall_cons in Hb as [_ Hb].
      apply Forall_app. split; assumption.
    + rewrite length_app in *. simpl in *. lia.
    + assert (Hsum : (length (actual ++ [g]) + length (l1 ++ l2)
                      = length actual + length (l1 ++ g :: l2))%nat)
        by (rewrite !length_app; simpl; lia).
      rewrite Hsum in *. split; intros Htot.
      * now apply IHr.
      * destruct (IHo Htot) as (picks & Hloop & Hlen & Hsel).
        exists (g :: picks). rewrite Hloop, <- app_assoc. simpl.
        split; [reflexivity|]. split; [rewrite !length_app in *; simpl; lia|].
        now constructor.
Qed.

Lemma selected_all w p picks :
  selected w p picks -> length picks = length p -> picks ≡ₚ p.
Proof.
  induction 1 as [p|l1 g l2 rest _ _ _ IH]; intros Hlen.
  - destruct p; [reflexivity | discriminate].
  - rewrite <- Permutation_middle. constructor. apply IH.
    rewrite !length_app in *. simpl in *. lia.
Qed.

(** X17. With a neighbour-based pool that is not empty,
    [highest_scoring_games] does not stop at [total_games]: it returns
    every game of the pool, in descending order of score, however many
    were asked for - except when exactly as many were asked for as the
    pool holds, for then it raises [KeyError]. *)
Theorem highest_scoring_games_whole_pool (set_iter : list obj -> list obj) (w : world)
    (users : dict) (total_games : Z) :
  (forall l, set_iter l ≡ₚ remove_dups l) ->
  _user_nodes (self w) = Some users ->
  NoDup (dict_keys users) ->
  set_iter (pool_of w users) <> [] ->
  forallb (scoredb w) (set_iter (pool_of w users)) = true ->
  (Z.of_nat (length (set_iter (pool_of w users))) = total_games ->
   highest_scoring_games set_iter total_games w = Raise KeyError w) /\
  (Z.of_nat (length (set_iter (pool_of w users))) <> total_games ->
   exists ranked,
     highest_scoring_games set_iter total_games w = Ok ranked w /\
     ranked ≡ₚ set_iter (pool_of w users) /\
     descending w ranked).
Proof.
  intros Hset Hu Hnd Hne Hsc.
  set (pool := set_iter (pool_of w users)) in *.
  assert (Hnd' : NoDup pool) by (unfold pool; rewrite (Hset _); apply NoDup_remove_dups).
  apply Forall_scoredb in Hsc.
  assert (Ha : attr_user_nodes w = Ok users w)
    by (unfold attr_user_nodes; now rewrite Hu).
  assert (Hstart : highest_scoring_games set_iter total_games w
                   = (actual <- neighbour_loop (S (length pool)) total_games pool [] ;;
                      sort_games actual) w).
  { unfold highest_scoring_games.
    rewrite (bind_ok _ _ _ _ _ Ha), (bind_ok _ _ _ _ _ (pool_adds w users Hu Hnd)).
    fold pool. destruct pool; [contradiction | reflexivity]. }
  rewrite Hstart.
  destruct (neighbour_loop_all w total_games (S (length pool)) pool [] Hnd' Hsc)
    as [Hraise Hok]; [lia|].
  split; intros Htot.
  - apply bind_raise. apply Hraise. simpl. exact Htot.
  - destruct Hok as (picks & Hloop & Hlen & Hsel); [simpl; exact Htot|].
    change ([] ++ picks) with picks in Hloop.
    exists picks. rewrite (bind_ok _ _ _ _ _ Hloop).
    pose proof (selected_order w pool picks Hsel) as Hord.
    split; [|split].
    + apply sort_games_in_order. intros a b Hab. apply (Hord a b Hab).
    + apply (selected_all w pool picks Hsel Hlen).
    + intros i a b Hi Hi'. apply (Hord a b). eapply adjacent_sublist; eassumption.
Qed.

Lemma highest_scoring_games_whole_pool_witness :
  ((forall l : list obj, remove_dups l ≡ₚ remove_dups l) /\
   _user_nodes (self rated_star) = Some [(1, 0%nat)] /\
   NoDup (dict_keys [(1, 0%nat)]) /\
   remove_dups (pool_of rated_star [(1, 0%nat)]) <> [] /\
   forallb (scoredb rated_star) (remove_dups (pool_of rated_star [(1, 0%nat)])) = true) /\
  highest_scoring_games remove_dups 1 rated_star = Ok [OGame 1; OGame 2] rated_star /\
  (Z.of_nat (length (remove_dups (pool_of rated_star [(1, 0%nat)]))) = 1 ->
   highest_scoring_games remove_dups 1 rated_star = Raise KeyError rated_star) /\
  (Z.of_nat (length (remove_dups (pool_of rated_star [(1, 0%nat)]))) <> 1 ->
   exists ranked,
     highest_scoring_games remove_dups 1 rated_star = Ok ranked rated_star /\
     ranked ≡ₚ remove_dups (pool_of rated_star [(1, 0%nat)]) /\
     descending rated_star ranked).
Proof.
  assert (Hk : NoDup (dict_keys [(1, 0%nat)])) by compute_done.
  split.
  - repeat split; try reflexivity; try exact Hk. discriminate.
  - split; [reflexivity|].
    apply (highest_scoring_games_whole_pool remove_dups rated_star [(1, 0%nat)] 1);
      try reflexivity; try exact Hk. discriminate.
Defined.

(** ** What ranking and the queries never do *)

Lemma ro_top_games_loop fuel : forall total possible actual,
  read_only (top_games_loop fuel total possible actual).
Proof.
  induction fuel as [|fuel IH]; intros total possible actual; simpl;
    destruct (negb _ || _); ro_steps; apply IH.
Qed.

Lemma ro_neighbour_loop fuel : forall total possible actual,
  read_only (neighbour_loop fuel total possible actual).
Proof.
  induction fuel as [|fuel IH]; intros total possible actual; simpl;
    destruct (negb _ || _); ro_steps; apply IH.
Qed.

Lemma ro_edges_exist_loop ids : read_only (edges_exist_loop ids).
Proof. induction ids as [|k ids IH]; simpl; ro_steps. Qed.

(** X18. Ranking and the queries only read: [top_games],
    [highest_scoring_games], [edges_exist], [max_price],
    [max_positive_ratio] and [user_genres] leave every game, node and
    mapping as it was, whether they return or raise; [sort_games] works
    on the list being returned, not on the graph. *)
Theorem queries_read_only (set_iter : list obj -> list obj) (total : Z) (w : world) :
  state_of (top_games set_iter total w) = w /\
  state_of (highest_scoring_games set_iter total w) = w /\
  state_of (edges_exist w) = w /\
  state_of (max_price w) = w /\
  state_of (max_positive_ratio w) = w /\
  state_of (user_genres w) = w.
Proof.
  assert (Htop : read_only (top_games set_iter total)).
  { unfold top_games. ro_steps. apply ro_top_games_loop. }
  repeat split.
  - apply Htop.
  - revert w. change (read_only (highest_scoring_games set_iter total)).
    unfold highest_scoring_games, pool_step. ro_steps. apply ro_neighbour_loop.
  - revert w. change (read_only edges_exist).
    unfold edges_exist. ro_steps. apply ro_edges_exist_loop.
  - apply ro_max_price.
  - apply ro_max_positive_ratio.
  - apply ro_user_genres.
Qed.

(** X19. The two [while] loops always end: each round takes a candidate
    out of the set or raises, so [top_games] and [highest_scoring_games]
    return or raise a Python exception for every graph and every number
    asked for, and never run on. *)
Theorem ranking_loops_end (set_iter : list obj -> list obj) (total : Z) (w : world) :
  raised (top_games set_iter total w) <> Some FuelExhausted /\
  raised (highest_scoring_games set_iter total w) <> Some FuelExhausted.
Proof.
  split; [apply top_games_within_fuel | apply highest_scoring_games_within_fuel].
Qed.

(** ** [generate_graph] *)

(** X20. [generate_graph] never returns a graph.  With no metadata it
    raises [AttributeError] in [add_all_edges]; otherwise it raises at
    the first record: [KeyError] when the catalog lacks its id,
    [AttributeError] from [add_game] when it has it.  The graph it was
    building holds no node. *)
Theorem generate_graph_never_returns (dbg : bool) (json_result : list (Z * list string))
    (csv_result : dict) (user_games : list pyval) (user_genres : list string)
    (max_price : float) (w : world) :
  let out := generate_graph dbg json_result csv_result user_games user_genres max_price w in
  raised out
  = Some (match json_result with
          | [] => AttributeError
          | metadata :: _ =>
              match dict_get (fst metadata) csv_result with
              | Some _ => AttributeError
              | None => KeyError
              end
          end) /\
  self (state_of out) = new_GameGraph user_games user_genres max_price.
Proof.
  unfold generate_graph, bind, bind_graph. simpl.
  destruct json_result as [|[id tags] rest]; simpl.
  - split; reflexivity.
  - unfold bind, subscript. simpl. destruct (dict_get id csv_result) as [game|]; simpl.
    + unfold add_game, bind, read_game, new_GameNode, nodes_setitem. simpl.
      split; reflexivity.
    + split; reflexivity.
Qed.

(** * The fallback, and edges after insertions *)

(** ** The catalog-wide fallback *)

(** C7. When no anchor has a neighbour, and so when there is no anchor
    at all, [highest_scoring_games] is the catalog-wide ranking
    [top_games]: same result, same store, same exception if any.  On a
    scored graph it returns the games asked for, distinct games of the
    graph selected best first, when fewer are asked for than the graph
    holds; asked for as many as the graph holds, or for more, it does
    not return the ranking but raises [KeyError]. *)
Theorem empty_pool_fallback (set_iter : list obj -> list obj) (w : world)
    (users all : dict) (total : Z) :
  (forall l, set_iter l ≡ₚ remove_dups l) ->
  _user_nodes (self w) = Some users ->
  NoDup (dict_keys users) ->
  pool_empty w users = true ->
  _nodes (self w) = Some all ->
  NoDup (dict_keys all) ->
  forallb (scoredb w) (set_iter (games_of w all)) = true ->
  let candidates := set_iter (games_of w all) in
  highest_scoring_games set_iter total w = top_games set_iter total w /\
  (0 <= total < Z.of_nat (length candidates) ->
   exists ranked,
     highest_scoring_games set_iter total w = Ok ranked w /\
     Z.of_nat (length ranked) = total /\
     NoDup ranked /\
     (forall x, x ∈ ranked -> x ∈ games_of w all) /\
     selected w candidates ranked) /\
  (total < 0 \/ Z.of_nat (length candidates) <= total ->
   highest_scoring_games set_iter total w = Raise KeyError w).
Proof.
  intros Hset Hu Hnd Hpool Hn Hkeys Hsc candidates.
  assert (Heq : highest_scoring_games set_iter total w = top_games set_iter total w).
  { unfold highest_scoring_games.
    assert (Ha : attr_user_nodes w = Ok users w)
      by (unfold attr_user_nodes; now rewrite Hu).
    rewrite (bind_ok _ _ _ _ _ Ha).
    rewrite (bind_ok _ _ _ _ _ (pool_adds_empty w users Hu Hnd Hpool)).
    assert (Hnil : set_iter [] = [])
      by (apply Permutation_nil_r; rewrite (Hset []); reflexivity).
    rewrite Hnil. reflexivity. }
  assert (Hcand : NoDup candidates).
  { unfold candidates. rewrite (Hset _). apply NoDup_remove_dups. }
  split; [exact Heq|]. rewrite Heq. split.
  - intros Htot.
    destruct (top_games_selects set_iter w all total Hset Hn Hkeys Hsc Htot)
      as (ranked & Hrun & Hlen & Hsel).
    exists ranked. split; [exact Hrun|]. split; [exact Hlen|].
    split; [|split; [|exact Hsel]].
    + apply (selected_NoDup _ _ _ Hsel), Hcand.
    + intros x Hx. apply (selected_subset _ _ _ Hsel) in Hx.
      rewrite (Hset _) in Hx. exact (proj1 (elem_of_remove_dups _ _) Hx).
  - intros Htot. unfold top_games.
    assert (Ha : attr_nodes w = Ok all w) by (unfold attr_nodes; now rewrite Hn).
    rewrite (bind_ok _ _ _ _ _ Ha).
    rewrite (bind_ok _ _ _ _ _ (catalog_adds w all Hn Hkeys)).
    apply bind_raise. apply top_games_loop_exhausts.
    + exact Hcand.
    + now apply Forall_scoredb.
    + lia.
    + simpl. fold candidates. lia.
Qed.

Lemma empty_pool_fallback_witness :
  ((forall l : list obj, remove_dups l ≡ₚ remove_dups l) /\
   _user_nodes (self rated_catalog) = Some [] /\
   NoDup (dict_keys []) /\
   pool_empty rated_catalog [] = true /\
   _nodes (self rated_catalog) = Some [(1, 0%nat); (2, 1%nat); (3, 2%nat)] /\
   NoDup (dict_keys [(1, 0%nat); (2, 1%nat); (3, 2%nat)]) /\
   forallb (scoredb rated_catalog)
     (remove_dups (games_of rated_catalog [(1, 0%nat); (2, 1%nat); (3, 2%nat)])) = true) /\
  highest_scoring_games remove_dups 2 rated_catalog
  = Ok [OGame 1; OGame 2] rated_catalog /\
  highest_scoring_games remove_dups 3 rated_catalog = Raise KeyError rated_catalog /\
  highest_scoring_games remove_dups 5 rated_catalog = Raise KeyError rated_catalog /\
  (let candidates :=
     remove_dups (games_of rated_catalog [(1, 0%nat); (2, 1%nat); (3, 2%nat)]) in
   highest_scoring_games remove_dups 5 rated_catalog
   = top_games remove_dups 5 rated_catalog /\
   (0 <= 5 < Z.of_nat (length candidates) ->
    exists ranked,
      highest_scoring_games remove_dups 5 rated_catalog = Ok ranked rated_catalog /\
      Z.of_nat (length ranked) = 5 /\
      NoDup ranked /\
      (forall x, x ∈ ranked ->
         x ∈ games_of rated_catalog [(1, 0%nat); (2, 1%nat); (3, 2%nat)]) /\
      selected rated_catalog candidates ranked) /\
   (5 < 0 \/ Z.of_nat (length candidates) <= 5 ->
    highest_scoring_games remove_dups 5 rated_catalog = Raise KeyError rated_catalog)).
Proof.
  assert (Hk : NoDup (dict_keys [(1, 0%nat); (2, 1%nat); (3, 2%nat)])) by compute_done.
  assert (H0 : NoDup (dict_keys [])) by constructor.
  pose proof (empty_pool_fallback remove_dups rated_catalog []
                [(1, 0%nat); (2, 1%nat); (3, 2%nat)] 5
                (fun l => reflexivity _) eq_refl H0 eq_refl eq_refl Hk eq_refl) as H5.
  split; [repeat split; try assumption; reflexivity|].
  split; [reflexivity|]. split; [reflexivity|].
  split; [|exact H5].
  apply H5. right. simpl. lia.
Defined.

(** ** Edges on a graph built by insertions *)






